(** * rocket-learn: the Redis rollout protocol

    A shallow embedding of
    [rocket_learn/rollout_generators/redis_rolloutgenerator.py]:
    the learner-side [RedisRolloutGenerator] and the [RedisRolloutWorker],
    both talking to one Redis server.

    Conventions of the embedding.
    - Python integers are [Z]; floats ([mu], [sigma], probabilities) are
      idealised as rationals [Q].
    - pickle is the identity: a stored value is the value, an absent key or an
      out-of-range list index is [None], and unpickling [None] raises
      [TypeError] (what [pickle.loads(None)] does).
    - A method is a computation in the monad [M]: it reads and writes the
      Redis store and either returns or raises; the writes made before an
      exception stay in the store.
    - A list index is taken to be within the 64-bit range that Redis
      accepts; versions are counts of updates and positions of the pool.
    - [trueskill.rate], [util.generate_episode], [np.random.shuffle] and the
      exponential behind [util.softmax] are collaborators outside the file;
      they are section variables. Of numpy, wandb and Redis the embedding
      has what the two classes do with them: [np.random.random] reads the
      next sample of a tape, and a mean over the random state is a mean
      over the equally likely tapes of a grid of samples. *)

From Stdlib Require Import String.
From Stdlib Require Import ZArith QArith Lqa List Bool Lia Permutation.
Import ListNotations.

Local Open Scope Z_scope.

(** ** Exceptions and the store monad *)

(** The Python exceptions the two classes can raise. [ResponseError] is
    redis-py's error for [LSET] with an index out of range. *)
Inductive error : Type :=
| TypeError
| KeyError
| ValueError
| AttributeError
| ResponseError
| ZeroDivisionError.

(** The end of a computation over a state [S]: a value, or an exception;
    both carry the state reached. *)
Inductive outcome (S A : Type) : Type :=
| Ok (a : A) (s : S)
| Raise (e : error) (s : S).
Arguments Ok {S A} a s.
Arguments Raise {S A} e s.

Definition M (S A : Type) : Type := S -> outcome S A.

Definition ret {S A} (a : A) : M S A := fun s => Ok a s.
Definition raise {S A} (e : error) : M S A := fun s => Raise e s.
Definition bind {S A B} (c : M S A) (k : A -> M S B) : M S B :=
  fun s => match c s with
           | Ok a s' => k a s'
           | Raise e s' => Raise e s'
           end.
Definition get {S} : M S S := fun s => Ok s s.
Definition put {S} (s : S) : M S unit := fun _ => Ok tt s.

Declare Scope redis_scope.
Delimit Scope redis_scope with redis.
Notation "x <- c ;; k" := (bind c (fun x => k))
  (at level 61, c at next level, right associativity) : redis_scope.
Notation "' pat <- c ;; k" := (bind c (fun x => match x with pat => k end))
  (at level 61, pat pattern, c at next level, right associativity) : redis_scope.
Notation "c ;;; k" := (bind c (fun _ => k))
  (at level 61, right associativity) : redis_scope.

Definition final_state {S A} (o : outcome S A) : S :=
  match o with Ok _ s => s | Raise _ s => s end.

Definition raised {S A} (o : outcome S A) : option error :=
  match o with Ok _ _ => None | Raise e _ => Some e end.

(** ** Ratings *)

(** [trueskill.Rating]: a mean and an uncertainty. *)
Record Rating : Type := mkRating { mu : Q; sigma : Q }.

(** trueskill's default uncertainty, [SIGMA = MU / 3] with [MU = 25]. *)
Definition SIGMA : Q := 25 # 3.

(** [Rating(m)]: the mean is given, the uncertainty is the default. *)
Definition Rating_mu (m : Q) : Rating := mkRating m SIGMA.

Definition Qsum (l : list Q) : Q := fold_right Qplus 0%Q l.

Definition Qlen {A} (l : list A) : Q := inject_Z (Z.of_nat (length l)).

(** [Rating(sum(r.mu for r in ratings) / len(ratings),
           sum(r.sigma for r in ratings) / len(ratings))] *)
Definition avg_rating (ratings : list Rating) : Rating :=
  mkRating (Qsum (map mu ratings) / Qlen ratings)
           (Qsum (map sigma ratings) / Qlen ratings).

(** ** Redis lists *)

(** Redis resolves a list index from the head when it is non-negative and
    from the tail when it is negative ([-1] is the last element). *)
Definition redis_index {A} (l : list A) (i : Z) : option nat :=
  let len := Z.of_nat (length l) in
  if 0 <=? i then (if i <? len then Some (Z.to_nat i) else None)
  else (if 0 <=? len + i then Some (Z.to_nat (len + i)) else None).

(** [LINDEX]: the element, or nothing when the index is out of range of
    the list. (An index outside the 64-bit range is refused by Redis; the
    embedding does not tell it apart.) *)
Definition lindex {A} (l : list A) (i : Z) : option A :=
  match redis_index l i with
  | Some n => nth_error l n
  | None => None
  end.

Fixpoint list_set {A} (l : list A) (n : nat) (v : A) : list A :=
  match l, n with
  | [], _ => []
  | _ :: t, O => v :: t
  | h :: t, S n' => h :: list_set t n' v
  end.

(** [LSET]: replaces the element; an index out of range is an error. *)
Definition lset {A} (l : list A) (i : Z) (v : A) : option (list A) :=
  match redis_index l i with
  | Some n => Some (list_set l n v)
  | None => None
  end.

(** [RPUSH] *)
Definition rpush {A} (l : list A) (v : A) : list A := l ++ [v].

(** ** The store *)

Section Protocol.

(** [Params] is a pickled model, [Traj] one seat's trajectory
    (an [ExperienceBuffer]); the protocol never looks inside either. *)
Context {Params Traj : Type}.

(** One entry of [rollout_data]: [(rollout, version)]. *)
Definition RolloutRecord : Type := (Traj * Z)%type.

(** What a worker pushes: [(rollout_data, uuid, name, result)]. *)
Record MatchSubmission : Type := mkSubmission {
  rollout_data : list RolloutRecord;
  sub_uuid : string;
  sub_name : string;
  result : Z
}.

(** The six keys of [_ALL]. A key that does not exist reads as [None]
    (strings) or as the empty list (lists). *)
Record Redis : Type := mkRedis {
  qualities : list Rating;            (* QUALITIES *)
  model_latest : option Params;       (* MODEL_LATEST *)
  rollouts : list MatchSubmission;    (* ROLLOUTS *)
  version_latest : option Z;          (* VERSION_LATEST *)
  opponent_models : list Params;      (* OPPONENT_MODELS *)
  worker_ids : list string            (* WORKER_IDS *)
}.

Definition empty_redis : Redis := mkRedis [] None [] None [] [].

Definition set_qualities (st : Redis) (q : list Rating) : Redis :=
  mkRedis q (model_latest st) (rollouts st) (version_latest st)
          (opponent_models st) (worker_ids st).
Definition set_model_latest (st : Redis) (m : option Params) : Redis :=
  mkRedis (qualities st) m (rollouts st) (version_latest st)
          (opponent_models st) (worker_ids st).
Definition set_rollouts (st : Redis) (q : list MatchSubmission) : Redis :=
  mkRedis (qualities st) (model_latest st) q (version_latest st)
          (opponent_models st) (worker_ids st).
Definition set_version_latest (st : Redis) (v : option Z) : Redis :=
  mkRedis (qualities st) (model_latest st) (rollouts st) v
          (opponent_models st) (worker_ids st).
Definition set_opponent_models (st : Redis) (o : list Params) : Redis :=
  mkRedis (qualities st) (model_latest st) (rollouts st) (version_latest st)
          o (worker_ids st).
Definition set_worker_ids (st : Redis) (w : list string) : Redis :=
  mkRedis (qualities st) (model_latest st) (rollouts st) (version_latest st)
          (opponent_models st) w.

Local Open Scope redis_scope.

(** [_unserialize(b)], and [int(b)], of a value read from the store. *)
Definition _unserialize {A} (b : option A) : M Redis A :=
  match b with
  | Some a => ret a
  | None => raise TypeError
  end.

(** [self.redis.lset(QUALITIES, version, _serialize(r))] *)
Definition lset_qualities (version : Z) (r : Rating) : M Redis unit :=
  st <- get ;;
  match lset (qualities st) version r with
  | Some q => put (set_qualities st q)
  | None => raise ResponseError
  end.

(** ** RedisRolloutGenerator *)

(** [trueskill.rate(rating_groups, ranks)] for two groups. The call without
    [ranks] uses trueskill's default [range(len(rating_groups))], that is
    [(0, 1)]. [None] is the library's [ValueError] (an empty group). *)
Variable rate :
  list Rating * list Rating -> Z * Z -> option (list Rating * list Rating).

(** [blue_players = sum(divmod(len(rollout_data), 2))] *)
Definition blue_players (data : list RolloutRecord) : nat :=
  (length data / 2 + length data mod 2)%nat.

(** The first loop of [generate_rollouts], lines 78-85, from seat [n] on:
    looks every version up in QUALITIES, keeps the rollouts of the latest
    version and splits the ratings into blue and orange by position. The
    lookup of a version without a rating raises. *)
Fixpoint collect_seats (qs : list Rating) (latest_version : Z) (blue_n : nat)
    (n : nat) (data : list RolloutRecord)
  : error + (list Traj * list Rating * list Rating) :=
  match data with
  | [] => inr ([], [], [])
  | (rollout, version) :: rest =>
      match lindex qs version with
      | None => inl TypeError
      | Some rating =>
          match collect_seats qs latest_version blue_n (S n) rest with
          | inl e => inl e
          | inr (rollouts, blue, orange) =>
              inr (if version =? latest_version then rollout :: rollouts
                   else rollouts,
                   if (n <? blue_n)%nat then rating :: blue else blue,
                   if (n <? blue_n)%nat then orange else rating :: orange)
          end
      end
  end.

(** Lines 87-90: the two calls of [rate]. [r1] is the new blue group and
    [r2] the new orange group on both branches. *)
Definition rate_teams (blue orange : list Rating) (result : Z)
  : error + (list Rating * list Rating) :=
  if 0 <=? result then
    match rate (blue, orange) (0, result) with
    | Some (r1, r2) => inr (r1, r2)
    | None => inl ValueError
    end
  else
    match rate (orange, blue) (0, 1) with
    | Some (r2, r1) => inr (r1, r2)
    | None => inl ValueError
    end.

(** The same pair with the groups exchanged. *)
Definition swap_teams {A B : Type} (r : error + (A * B)) : error + (B * A) :=
  match r with
  | inr (a, b) => inr (b, a)
  | inl e => inl e
  end.

(** What the embedding asks of [trueskill.rate]: the new groups have the
    sizes of the old ones. *)
Definition rate_keeps_sizes : Prop :=
  forall a b ranks a' b',
    rate (a, b) ranks = Some (a', b') ->
    length a' = length a /\ length b' = length b.

(** trueskill sorts the groups by rank and compares neighbouring ranks for
    a tie: a second rank above 0 does the same as the rank 1. *)
Definition rate_by_order : Prop :=
  forall groups k, 0 < k -> rate groups (0, k) = rate groups (0, 1).

(** The dict [versions], in insertion order. *)
Definition versions_dict : Type := list (Z * list Rating).

(** [versions.setdefault(version, []).append(rating)] *)
Fixpoint setdefault_append (d : versions_dict) (version : Z) (rating : Rating)
  : versions_dict :=
  match d with
  | [] => [(version, [rating])]
  | (k, rs) :: d' =>
      if k =? version then (k, rs ++ [rating]) :: d'
      else (k, rs) :: setdefault_append d' version rating
  end.

(** Lines 92-94: [for rating, (rollout, version) in zip(r1 + r2, rollout_data)]. *)
Definition group_versions (rs : list Rating) (data : list RolloutRecord)
  : versions_dict :=
  fold_left (fun d p => setdefault_append d (snd (snd p)) (fst p))
            (combine rs data) [].

Definition dict_mem (d : versions_dict) (k : Z) : bool :=
  existsb (fun p => fst p =? k) d.

(** [del versions[k]]: a missing key is a [KeyError]. *)
Definition dict_del (d : versions_dict) (k : Z) : option versions_dict :=
  if dict_mem d k then Some (filter (fun p => negb (fst p =? k)) d)
  else None.

(** The averaged ratings that lines 97-100 write, in the order they are
    written. *)
Definition write_back_map (d : versions_dict) : list (Z * Rating) :=
  map (fun p => (fst p, avg_rating (snd p))) d.

(** Lines 97-100: one [LSET] per remaining version. *)
Fixpoint write_back (wb : list (Z * Rating)) : M Redis unit :=
  match wb with
  | [] => ret tt
  | (version, avg) :: wb' => lset_qualities version avg ;;; write_back wb'
  end.

(** Lines 70-94 of one pass of the [while True] loop: the rollouts to yield
    and the dict [versions] before the deletion. Pure in the store. *)
Definition group_ratings (st : Redis) (sub : MatchSubmission)
  : error + (list Traj * versions_dict) :=
  match version_latest st with
  | None => inl TypeError                       (* int(None) *)
  | Some latest_version =>
      let data := rollout_data sub in
      match collect_seats (qualities st) latest_version (blue_players data)
                          0 data with
      | inl e => inl e
      | inr (rollouts, blue, orange) =>
          match rate_teams blue orange (result sub) with
          | inl e => inl e
          | inr (r1, r2) => inr (rollouts, group_versions (r1 ++ r2) data)
          end
      end
  end.

(** Lines 70-99: everything one pass computes before it writes, the
    rollouts to yield and the write-back map. *)
Definition aggregate (st : Redis) (sub : MatchSubmission)
  : error + (list Traj * list (Z * Rating)) :=
  match group_ratings st sub with
  | inl e => inl e
  | inr (rollouts, versions) =>
      match dict_del versions 0 with
      | None => inl KeyError                    (* del versions[0] *)
      | Some versions => inr (rollouts, write_back_map versions)
      end
  end.

(** A record whose version has no entry in the rating list [qs]. *)
Definition unresolved (qs : list Rating) (r : RolloutRecord) : Prop :=
  lindex qs (snd r) = None.

(** Whether some seat of the submission was played by [version]. *)
Definition has_version (version : Z) (sub : MatchSubmission) : bool :=
  existsb (fun r => snd r =? version) (rollout_data sub).

(** One pass of the loop of [generate_rollouts] on a dequeued submission,
    lines 70-102; the value is what [yield from rollouts] hands out. *)
Definition process_submission (sub : MatchSubmission) : M Redis (list Traj) :=
  st <- get ;;
  match aggregate st sub with
  | inl e => raise e
  | inr (rollouts, wb) => write_back wb ;;; ret rollouts
  end.

(** How a run of the generator ends: [blpop] blocks on an empty queue, or
    an exception leaves the generator. *)
Inductive gen_end : Type :=
| Blocked
| Crashed (e : error).

(** [generate_rollouts] run against the submissions queued in ROLLOUTS, with
    nobody else writing to the store meanwhile: everything it yields, how
    it ends and the store it leaves. *)
Fixpoint generate_rollouts_from (queue : list MatchSubmission) (st : Redis)
  : list Traj * gen_end * Redis :=
  match queue with
  | [] => ([], Blocked, set_rollouts st [])
  | sub :: rest =>                                (* blpop *)
      match process_submission sub (set_rollouts st rest) with
      | Raise e st' => ([], Crashed e, st')
      | Ok ts st' =>
          let '(more, e, st'') := generate_rollouts_from rest st' in
          (ts ++ more, e, st'')
      end
  end.

Definition generate_rollouts (st : Redis) : list Traj * gen_end * Redis :=
  generate_rollouts_from (rollouts st) st.

(** The fields of a generator object. A logger, when there is one, is
    modelled by the series of the charts it has been sent. *)
Record Generator : Type := mkGenerator {
  n_updates : Z;
  save_every : Z;
  logger : option (list (list Q))
}.

(** [RedisRolloutGenerator.__init__]: with [clear], every key of [_ALL]
    that exists is deleted. *)
Definition RedisRolloutGenerator_init (save_every : Z)
    (logger : option (list (list Q))) (clear : bool) : M Redis Generator :=
  (if clear then put empty_redis else ret tt) ;;;
  ret (mkGenerator 0 save_every logger).

(** A numpy array as [wandb.plot.line_series] meets it: a sequence of
    numbers, or an array of dimension 0 around one object. *)
Inductive ndarray : Type :=
| Sequence (values : list Q)
| Scalar.

(** [np.array(r.mu for r in ratings)]: the argument is a generator
    expression, which numpy does not run; it wraps the generator object in
    an array of dimension 0 and of dtype [object]. *)
Definition np_array_of_generator (means : list Q) : ndarray := Scalar.

(** [wandb.plot.line_series(xs, ys, ...)] pairs [xs] with every series of
    [ys]; iterating an array of dimension 0 raises [TypeError]. The chart
    is modelled by its series. *)
Fixpoint line_series (xs : list Z) (ys : list ndarray)
  : error + list (list Q) :=
  match ys with
  | [] => inr []
  | Scalar :: _ => inl TypeError
  | Sequence values :: ys' =>
      match line_series xs ys' with
      | inl e => inl e
      | inr chart => inr (values :: chart)
      end
  end.

(** [np.arange(n)] *)
Definition arange (n : nat) : list Z := map Z.of_nat (seq 0 n).

(** [_add_opponent]: pushes the model and reads all the ratings. When there
    are some it logs them, [self.logger.log(line_series(...))]: without a
    logger the attribute [log] of [None] is an [AttributeError], and with
    one the argument is evaluated first, which raises in [line_series]. The
    new rating is seeded with the last mean, with mean 0 on an empty list,
    and pushed. *)
Definition _add_opponent (self : Generator) (agent : Params)
  : M Redis Generator :=
  st <- get ;;
  put (set_opponent_models st (rpush (opponent_models st) agent)) ;;;
  st <- get ;;
  let ratings := qualities st in
  '(self', quality) <-
    match ratings with
    | [] => ret (self, Rating_mu 0)
    | r :: rs =>
        match logger self with
        | None => raise AttributeError
        | Some sink =>
            match line_series (arange (length ratings))
                    [np_array_of_generator (map mu ratings)] with
            | inl e => raise e
            | inr chart =>
                ret (mkGenerator (n_updates self) (save_every self)
                                 (Some (sink ++ chart)),
                     Rating_mu (mu (last rs r)))
            end
        end
    end ;;
  st <- get ;;
  put (set_qualities st (rpush (qualities st) quality)) ;;;
  ret self'.

(** [update_parameters]; Python's [%] is [Z.modulo] and raises on a zero
    divisor. *)
Definition update_parameters (self : Generator) (new_params : Params)
  : M Redis Generator :=
  st <- get ;;
  put (set_model_latest st (Some new_params)) ;;;
  st <- get ;;
  put (set_version_latest st (Some (n_updates self))) ;;;
  self' <-
    (if save_every self =? 0 then raise ZeroDivisionError
     else if n_updates self mod save_every self =? 0
          then _add_opponent self new_params
          else ret self) ;;
  ret (mkGenerator (n_updates self' + 1) (save_every self') (logger self')).

(** [k] calls of [update_parameters] in a row, with the parameters
    [params 0], [params 1], ... *)
Fixpoint update_many (params : nat -> Params) (from k : nat)
    (self : Generator) : M Redis Generator :=
  match k with
  | O => ret self
  | S k' =>
      self' <- update_parameters self (params from) ;;
      update_many params (S from) k' self'
  end.

(** ** RedisRolloutWorker *)

(** What a worker process sees: the store, numpy's global random state (a
    tape of uniform samples of [0, 1) and the position reached) and the
    seconds spent in [time.sleep]. *)
Record World : Type := mkWorld {
  redis : Redis;
  rng : nat -> Q;
  rng_pos : nat;
  slept : Z
}.

Definition get_redis : M World Redis := fun w => Ok (redis w) w.

Definition put_redis (st : Redis) : M World unit :=
  fun w => Ok tt (mkWorld st (rng w) (rng_pos w) (slept w)).

(** [np.random.random()] *)
Definition random : M World Q :=
  fun w => Ok (rng w (rng_pos w))
              (mkWorld (redis w) (rng w) (S (rng_pos w)) (slept w)).

(** [time.sleep(seconds)] *)
Definition sleep (seconds : Z) : M World unit :=
  fun w => Ok tt (mkWorld (redis w) (rng w) (rng_pos w) (slept w + seconds)).

Definition unserialize_w {A} (b : option A) : M World A :=
  match b with
  | Some a => ret a
  | None => raise TypeError
  end.

Definition Qltb (x y : Q) : bool := negb (Qle_bool y x).

(** [np.log(10)] and the exponential are not rational numbers: both are
    left open. *)
Variable log10 : Q.
Variable expq : Q -> Q.

(** Modelled from the spec: [rocket_learn.utils.util.softmax] is not among
    the sources; section 4.2 has the selection probabilities proportional
    to a softmax, that is each exponential over the sum of all of them (an
    implementation that first subtracts the maximum computes the same
    quotients). *)
Definition softmax (x : list Q) : list Q :=
  let e := map expq x in
  map (fun v => (v / Qsum e)%Q) e.

Fixpoint cumsum_from (acc : Q) (p : list Q) : list Q :=
  match p with
  | [] => []
  | x :: t => (acc + x)%Q :: cumsum_from (acc + x)%Q t
  end.

(** [p.cumsum()] *)
Definition cumsum (p : list Q) : list Q := cumsum_from 0%Q p.

(** [cdf.searchsorted(u, side='right')] on a non-decreasing [cdf]: the
    first position whose entry exceeds [u], the length when there is none. *)
Fixpoint searchsorted_right (cdf : list Q) (u : Q) : nat :=
  match cdf with
  | [] => O
  | c :: t => if Qltb u c then O else S (searchsorted_right t u)
  end.

(** [np.random.choice(a, p=p)] for an integer [a]: numpy refuses an empty
    population, a [p] of another size, a negative probability and
    probabilities that do not sum to 1 (up to a tolerance in floating point,
    exactly here); then it draws one uniform sample and inverts the
    normalised cumulative sums. *)
Definition choice (a : nat) (p : list Q) : M World nat :=
  if (a =? 0)%nat then raise ValueError
  else if negb (length p =? a)%nat then raise ValueError
  else if existsb (fun x => Qltb x 0%Q) p then raise ValueError
  else if negb (Qeq_bool (Qsum p) 1%Q) then raise ValueError
  else
    let cdf := cumsum p in
    let cdf := map (fun c => (c / last cdf 1)%Q) cdf in
    u <- random ;;
    ret (searchsorted_right cdf u).

(** The fields of a worker object ([self.env] is the simulator, below). *)
Record Worker : Type := mkWorker {
  name : string;
  current_agent : Params;
  current_version_prob : Q;
  uuid : string;
  n_agents : Z
}.

(** [RedisRolloutWorker.__init__]: [fresh_uuid] is [str(uuid4())] and
    [match_agents] is [match.agents]. The [print] and the start of the
    simulator are left out. *)
Definition RedisRolloutWorker_init (name : string) (match_agents : Z)
    (current_version_prob : Q) (fresh_uuid : string) : M World Worker :=
  st <- get_redis ;;
  agent <- unserialize_w (model_latest st) ;;
  st <- get_redis ;;
  put_redis (set_worker_ids st (rpush (worker_ids st) fresh_uuid)) ;;;
  ret (mkWorker name agent current_version_prob fresh_uuid match_agents).

(** [_get_opponent_index] *)
Definition _get_opponent_index : M World (nat * Q) :=
  st <- get_redis ;;
  let qualities := map mu (qualities st) in
  let probs := softmax (map (fun q => (q / log10)%Q) qualities) in
  index <- choice (length probs) probs ;;
  ret (index, nth index probs 0%Q).

(** One entry of [agents]: [(agent, version, prob)]. *)
Definition Seat : Type := (Params * Z * Q)%type.

(** [(self.current_version_prob * self.n_agents - 1) / (self.n_agents - 1)] *)
Definition adjusted_prob (current_version_prob : Q) (n_agents : Z) : Q :=
  ((current_version_prob * inject_Z n_agents - 1) / (inject_Z n_agents - 1))%Q.

(** The loop of lines 183-194, [k] seats to go. *)
Fixpoint extra_seats (self : Worker) (latest_version : Z) (adjusted : Q)
    (k : nat) : M World (list Seat) :=
  match k with
  | O => ret []
  | S k' =>
      u <- random ;;
      let is_current := Qltb u adjusted in
      seat <-
        (if negb is_current then
           '(index, prob) <- _get_opponent_index ;;
           st <- get_redis ;;
           selected_agent <-
             unserialize_w (lindex (opponent_models st) (Z.of_nat index)) ;;
           ret (selected_agent, Z.of_nat index, prob)
         else
           ret (current_agent self, latest_version,
                current_version_prob self)) ;;
      rest <- extra_seats self latest_version adjusted k' ;;
      ret (seat :: rest)
  end.

(** [np.random.shuffle] and [util.generate_episode(self.env, agents)]. *)
Variable shuffle : list Seat -> list Seat.
Variable generate_episode : list Params -> list Traj * Z.

(** How one pass of the worker's [while True] ends. *)
Inductive iteration : Type :=
| Waited       (* the model is not there: slept and went back to the top *)
| Published.   (* played a match and pushed it *)

(** The agents of one match, lines 178-196. *)
Definition select_agents (self : Worker) (latest_version : Z)
  : M World (list Seat) :=
  let agents :=
    [(current_agent self, latest_version, current_version_prob self)] in
  more <-
    (if 1 <? n_agents self then
       extra_seats self latest_version
         (adjusted_prob (current_version_prob self) (n_agents self))
         (Z.to_nat (n_agents self - 1))
     else ret []) ;;
  ret (shuffle (agents ++ more)).

(** One pass of the loop of [run], lines 165-204. The counter [n] of the
    source is written and never read; it is left out. *)
Definition run_iteration (self : Worker) : M World (Worker * iteration) :=
  st <- get_redis ;;
  let model_bytes := model_latest st in
  let latest_version := version_latest st in
  match model_bytes with
  | None => sleep 1 ;;; ret (self, Waited)
  | Some updated_agent =>
      latest_version <- unserialize_w latest_version ;;
      let self := mkWorker (name self) updated_agent
                           (current_version_prob self) (uuid self)
                           (n_agents self) in
      agents <- select_agents self latest_version ;;
      let '(rollouts', result) :=
        generate_episode (map (fun s => fst (fst s)) agents) in
      let rollout_data :=
        combine rollouts' (map (fun s => snd (fst s)) agents) in
      st <- get_redis ;;
      put_redis (set_rollouts st
        (rpush (rollouts st)
               (mkSubmission rollout_data (uuid self) (name self) result))) ;;;
      ret (self, Published)
  end.

(** [run] for at most [fuel] passes: the worker, and the number of matches
    it pushed. The loop of the source has no exit. *)
Fixpoint run (fuel : nat) (self : Worker) : M World (Worker * nat) :=
  match fuel with
  | O => ret (self, O)
  | S fuel' =>
      '(self', it) <- run_iteration self ;;
      '(self'', n) <- run fuel' self' ;;
      ret (self'', match it with Published => S n | Waited => n end)
  end.

(** The positions among [from], ..., [from + k - 1] at which
    [n_updates % save_every == 0]. *)
Definition append_positions (save_every : Z) (from k : nat) : list nat :=
  filter (fun j => Z.of_nat j mod save_every =? 0) (seq from k).

End Protocol.

(** ** The seat draw over the random tapes *)

(** [np.random.random()] answers with one of finitely many equally likely
    samples of [0, 1), the multiples of [2^-53]; [samples n] is the grid of
    the multiples of [1 / n]. *)
Definition samples (n : nat) : list Q :=
  map (fun i => (inject_Z (Z.of_nat i) / inject_Z (Z.of_nat n))%Q) (seq 0 n).

(** The tapes of [k] samples of the grid, all equally likely. *)
Fixpoint tapes (n k : nat) : list (list Q) :=
  match k with
  | O => [[]]
  | S k' => flat_map (fun u => map (cons u) (tapes n k')) (samples n)
  end.

(** The random state that answers with the samples of [us] in order. *)
Definition tape_of (us : list Q) : nat -> Q := fun i => nth i us 0%Q.

Definition Zsum (l : list Z) : Z := fold_right Z.add 0 l.

(** The mean of [f] over the tapes of [k] samples. *)
Definition mean_over (n k : nat) (f : list Q -> Z) : Q :=
  (inject_Z (Zsum (map f (tapes n k)))
   / inject_Z (Z.of_nat (length (tapes n k))))%Q.

(** How many samples of the grid are below [p]: over [n], the probability
    of [np.random.random() < p]. *)
Definition samples_below (n : nat) (p : Q) : Z :=
  Z.of_nat (length (filter (fun u => Qltb u p) (samples n))).

(** How many of [m] seats in a row are drawn as current when the random
    state is [tape] at [pos]: a seat not drawn as current takes a second
    sample, for the choice of the opponent. *)
Fixpoint draws_below (adjusted : Q) (m : nat) (tape : nat -> Q) (pos : nat)
  : nat :=
  match m with
  | O => O
  | S m' =>
      if Qltb (tape pos) adjusted
      then S (draws_below adjusted m' tape (S pos))
      else draws_below adjusted m' tape (S (S pos))
  end.

Section SeatDraw.

Context {Params Traj : Type}.
Variable log10 : Q.
Variable expq : Q -> Q.
Variable shuffle : list (@Seat Params) -> list (@Seat Params).

(** The seats of [agents] that play the latest version. *)
Definition current_seats (latest_version : Z) (agents : list (@Seat Params))
  : nat :=
  length (filter (fun s => snd (fst s) =? latest_version) agents).

(** The number of seats at the latest version in the match that
    [select_agents] fields in the store [st] when the random state
    answers with [us]; 0 when the selection raises. *)
Definition current_seats_on (self : @Worker Params) (latest_version : Z)
    (st : @Redis Params Traj) (us : list Q) : Z :=
  match select_agents log10 expq shuffle self latest_version
                      (mkWorld st (tape_of us) 0 0) with
  | Ok agents _ => Z.of_nat (current_seats latest_version agents)
  | Raise _ _ => 0
  end.

End SeatDraw.

(** ** Sample collaborators

    Small executable stand-ins for the collaborators, to run the protocol
    on concrete stores. *)

(** A win moves every mean of the winners up by one and of the losers down
    by one and narrows every uncertainty; a tie only narrows. As in
    trueskill the ranks matter only through their order, and an empty group
    is refused. *)
Definition sample_rate (groups : list Rating * list Rating) (ranks : Z * Z)
  : option (list Rating * list Rating) :=
  let '(a, b) := groups in
  let '(ra, rb) := ranks in
  match a, b with
  | [], _ | _, [] => None
  | _, _ =>
      let shift (d : Q) (r : Rating) :=
        mkRating (mu r + d) (sigma r * (9 # 10)) in
      let d := if ra <? rb then 1%Q else if rb <? ra then (-1)%Q else 0%Q in
      Some (map (shift d) a, map (shift (- d)%Q) b)
  end.

(** A positive, increasing stand-in for the exponential. *)
Definition sample_exp (x : Q) : Q :=
  if Qltb x 0%Q then (1 / (1 - x))%Q else (1 + x)%Q.

Definition sample_log10 : Q := 23 # 10.

(** A tape that always answers [u]. *)
Definition constant_tape (u : Q) : nat -> Q := fun _ => u.

(** An environment that hands every seat the trajectory [7] and lets blue
    win by one goal. *)
Definition sample_episode (agents : list nat) : list nat * Z :=
  (map (fun _ => 7%nat) agents, 1).

(** ** Sample stores and a sample session *)

Definition r0 : Rating := Rating_mu 0.

(** One model published and rated, nothing queued. *)
Definition store_v0 : @Redis nat nat :=
  mkRedis [r0] (Some 0%nat) [] (Some 0) [0%nat] [].

(** Two models published and rated, the latest version is 1. *)
Definition store_v1 : @Redis nat nat :=
  mkRedis [r0; r0] (Some 1%nat) [] (Some 1) [0%nat; 1%nat] [].

(** A model published before any opponent was added. *)
Definition store_no_opponent : @Redis nat nat :=
  mkRedis [] (Some 0%nat) [] (Some 0) [] [].

(** Both seats played by version 0. *)
Definition sub_00 : @MatchSubmission nat :=
  mkSubmission [(20%nat, 0); (21%nat, 0)] "uuid" "worker" 1.

(** Both seats played by version 1. *)
Definition sub_11 : @MatchSubmission nat :=
  mkSubmission [(10%nat, 1); (11%nat, 1)] "uuid" "worker" 1.

(** One seat played by a version that has no rating. *)
Definition sub_70 : @MatchSubmission nat :=
  mkSubmission [(30%nat, 7); (31%nat, 0)] "uuid" "worker" 1.

Definition worker_2 : @Worker nat := mkWorker "worker" 0%nat (9 # 10) "uuid" 2.

(** Two models published by a learner that snapshots every ten updates:
    the latest version is 1 and only version 0 is in the pool and rated. *)
Definition store_v1_unrated : @Redis nat nat :=
  mkRedis [r0] (Some 1%nat) [] (Some 1) [0%nat] [].

(** A learner with a logger is constructed with [clear] and publishes two
    models; a worker starts, plays one match of two seats, both drawn as
    current, and pushes it; the learner then pulls from the queue. [None]
    when a step before the pull raises. *)
Definition sample_session (save_every : Z)
  : option (list nat * gen_end * @Redis nat nat) :=
  match bind (RedisRolloutGenerator_init save_every (Some []) true)
             (update_many (fun n => n) 0 2) (@empty_redis nat nat) with
  | Raise _ _ => None
  | Ok _ st =>
      match RedisRolloutWorker_init "worker" 2 (9 # 10) "uuid"
              (mkWorld st (constant_tape 0) 0 0) with
      | Raise _ _ => None
      | Ok self w =>
          match run_iteration sample_log10 sample_exp (fun l => l)
                              sample_episode self w with
          | Raise _ _ => None
          | Ok _ w' => Some (generate_rollouts sample_rate (redis w'))
          end
      end
  end.

(** ** More definitions for the generator *)

Section ProtocolMore.

Context {Params Traj : Type}.
Variable rate :
  list Rating * list Rating -> Z * Z -> option (list Rating * list Rating).

(** Lines 78-90: the new rating of every seat, [r1 + r2], when the lookups
    and [rate] go through. *)
Definition new_seat_ratings (st : @Redis Params Traj)
    (sub : @MatchSubmission Traj) : option (list Rating) :=
  match version_latest st with
  | None => None
  | Some latest_version =>
      let data := rollout_data sub in
      match collect_seats (qualities st) latest_version (blue_players data)
                          0 data with
      | inl _ => None
      | inr (_, blue, orange) =>
          match rate_teams rate blue orange (result sub) with
          | inl _ => None
          | inr (r1, r2) => Some (r1 ++ r2)
          end
      end
  end.

(** Of the pairs of [zip(r1 + r2, rollout_data)], the ratings that go with
    [version], in the order of the seats. *)
Definition ratings_at (version : Z) (rs : list Rating)
    (data : list (@RolloutRecord Traj)) : list Rating :=
  map fst (filter (fun p => snd (snd p) =? version) (combine rs data)).

(** [versions.get(k)] *)
Definition dict_get (d : versions_dict) (k : Z) : option (list Rating) :=
  match find (fun p => fst p =? k) d with
  | Some p => Some (snd p)
  | None => None
  end.

End ProtocolMore.

(** ** More definitions for the worker *)

Section WorkerMore.

Context {Params Traj : Type}.

(** Between [w] and [w'] only the position on the random tape has moved,
    and only forward. *)
Definition only_rng_moved (w w' : @World Params Traj) : Prop :=
  redis w' = redis w /\ slept w' = slept w /\ rng w' = rng w
  /\ (rng_pos w <= rng_pos w')%nat.

(** A version that a seat may carry in the store [st]: the latest version,
    or the index of a snapshot that is in the pool. *)
Definition seat_version_ok (st : @Redis Params Traj) (latest_version : Z)
    (version : Z) : Prop :=
  version = latest_version
  \/ 0 <= version < Z.of_nat (length (opponent_models st)).

(** A computation of the worker that leaves all but the tape position as
    it found it, however it ends. *)
Definition keeps_store {A} (c : M (@World Params Traj) A) : Prop :=
  forall w, only_rng_moved w (final_state (c w)).

End WorkerMore.

(** ** More samples *)

(** Three seats: version 1 plays the first and the third, version 0 the
    second. *)
Definition sub_101 : @MatchSubmission nat :=
  mkSubmission [(40%nat, 1); (41%nat, 0); (42%nat, 1)] "uuid" "worker" 1.

(** A worker of three seats that always plays the current model. *)
Definition worker_sure : @Worker nat := mkWorker "worker" 0%nat 1 "uuid" 3.

(** A worker of two seats that wants half of them current: its adjusted
    probability is 0. *)
Definition worker_half : @Worker nat :=
  mkWorker "worker" 0%nat (1 # 2) "uuid" 2.


(** The first seat carries the version -2, which Redis resolves from the
    tail of the list. *)
Definition sub_neg : @MatchSubmission nat :=
  mkSubmission [(50%nat, -2); (51%nat, 0)] "uuid" "worker" 1.

(** A world around [store_v1] in which every sample is 0. *)
Definition world_v1 : @World nat nat := mkWorld store_v1 (constant_tape 0) 0 0.

(** * Facts about the generator *)

Section GeneratorFacts.

Context {Params Traj : Type}.
Variable rate :
  list Rating * list Rating -> Z * Z -> option (list Rating * list Rating).

Local Abbreviation Redis := (@Redis Params Traj).
Local Abbreviation MatchSubmission := (@MatchSubmission Traj).
Local Abbreviation RolloutRecord := (@RolloutRecord Traj).

(** *** The first loop *)

Lemma collect_seats_inl qs lv bn (data : list RolloutRecord) : forall n e,
  collect_seats qs lv bn n data = inl e ->
  e = TypeError /\ Exists (unresolved qs) data.
Proof.
  induction data as [|[rollout version] rest IH]; intros n e H; simpl in H.
  - discriminate.
  - destruct (lindex qs version) as [rating|] eqn:L.
    + destruct (collect_seats qs lv bn (S n) rest) as [e'|[[ro bl] og]] eqn:C.
      * inversion H; subst e'. destruct (IH _ _ C) as [-> E]. auto.
      * discriminate.
    + inversion H. split; [reflexivity|]. now apply Exists_cons_hd.
Qed.

Lemma collect_seats_unresolved qs lv bn (data : list RolloutRecord) : forall n,
  Exists (unresolved qs) data ->
  collect_seats qs lv bn n data = inl TypeError.
Proof.
  induction data as [|[rollout version] rest IH]; intros n E.
  - inversion E.
  - simpl. destruct (lindex qs version) as [rating|] eqn:L; [|reflexivity].
    inversion E as [? ? U|? ? U]; subst.
    + unfold unresolved in U. simpl in U. congruence.
    + now rewrite (IH (S n) U).
Qed.

Lemma collect_seats_inr qs lv bn (data : list RolloutRecord) :
  forall n ro bl og,
  collect_seats qs lv bn n data = inr (ro, bl, og) ->
  Forall (fun r => ~ unresolved qs r) data
  /\ ro = map fst (filter (fun r => snd r =? lv) data)
  /\ (length bl + length og = length data)%nat.
Proof.
  induction data as [|[rollout version] rest IH]; intros n ro bl og H;
    simpl in H.
  - inversion H. auto.
  - destruct (lindex qs version) as [rating|] eqn:L; [|discriminate].
    destruct (collect_seats qs lv bn (S n) rest) as [e'|[[ro' bl'] og']] eqn:C;
      [discriminate|].
    destruct (IH _ _ _ _ C) as (F & R & N).
    inversion H; subst. split; [|split].
    + constructor; [|assumption]. unfold unresolved. simpl. congruence.
    + simpl. destruct (version =? lv); reflexivity.
    + destruct (n <? bn)%nat; simpl; lia.
Qed.

(** *** The dict of versions *)

Lemma dict_mem_setdefault d version rating k :
  dict_mem (setdefault_append d version rating) k
  = dict_mem d k || (version =? k).
Proof.
  unfold dict_mem. induction d as [|[k0 rs] d IH]; simpl.
  - now rewrite orb_false_r.
  - destruct (Z.eqb_spec k0 version) as [->|N]; simpl.
    + destruct (version =? k); simpl; [reflexivity|now rewrite orb_false_r].
    + rewrite IH. now rewrite orb_assoc.
Qed.

Lemma dict_mem_fold (l : list (Rating * RolloutRecord)) : forall d k,
  dict_mem (fold_left (fun d p => setdefault_append d (snd (snd p)) (fst p))
                      l d) k
  = dict_mem d k || existsb (fun p => snd (snd p) =? k) l.
Proof.
  induction l as [|p l IH]; intros d k; simpl.
  - now rewrite orb_false_r.
  - rewrite IH, dict_mem_setdefault. now rewrite orb_assoc.
Qed.

Lemma dict_mem_group rs (data : list RolloutRecord) k :
  dict_mem (group_versions rs data) k
  = existsb (fun p => snd (snd p) =? k) (combine rs data).
Proof. unfold group_versions. now rewrite dict_mem_fold. Qed.

Lemma existsb_combine_snd {A B} (g : B -> bool) (l : list A) :
  forall l' : list B,
  existsb (fun p => g (snd p)) (combine l l') = true -> existsb g l' = true.
Proof.
  induction l as [|a l IH]; intros [|b l'] H; simpl in *; try discriminate.
  apply orb_true_iff in H. apply orb_true_iff.
  destruct H as [H|H]; [now left|right; now apply IH].
Qed.

Lemma existsb_combine_full {A B} (g : B -> bool) (l : list A) :
  forall l' : list B, length l = length l' ->
  existsb (fun p => g (snd p)) (combine l l') = existsb g l'.
Proof.
  induction l as [|a l IH]; intros [|b l'] H; simpl in *; try discriminate;
    [reflexivity|].
  f_equal. apply IH. lia.
Qed.

Lemma dict_mem_In (d : versions_dict) k :
  dict_mem d k = true <-> In k (map fst d).
Proof.
  unfold dict_mem. rewrite existsb_exists, in_map_iff. split.
  - intros [p [I E]]. exists p. apply Z.eqb_eq in E. auto.
  - intros [p [E I]]. exists p. split; [assumption|]. now apply Z.eqb_eq.
Qed.

Lemma dict_del_keys (d d' : versions_dict) k k' :
  dict_del d k = Some d' ->
  In k' (map fst d') <-> In k' (map fst d) /\ k' <> k.
Proof.
  unfold dict_del. destruct (dict_mem d k); [|discriminate].
  intros H. inversion H; subst d'. clear H.
  rewrite !in_map_iff. split.
  - intros [p [E I]]. apply filter_In in I. destruct I as [I Hn].
    apply negb_true_iff, Z.eqb_neq in Hn. split; [eauto|congruence].
  - intros [[p [E I]] Hn]. exists p. split; [assumption|].
    apply filter_In. split; [assumption|].
    apply negb_true_iff, Z.eqb_neq. congruence.
Qed.

Lemma write_back_map_keys (d : versions_dict) :
  map fst (write_back_map d) = map fst d.
Proof. unfold write_back_map. rewrite map_map. reflexivity. Qed.


(** *** Rating the two teams *)

Lemma rate_teams_inl blue orange result e :
  rate_teams rate blue orange result = inl e -> e = ValueError.
Proof.
  unfold rate_teams. destruct (0 <=? result).
  - destruct (rate (blue, orange) (0, result)) as [[r1 r2]|]; congruence.
  - destruct (rate (orange, blue) (0, 1)) as [[r2 r1]|]; congruence.
Qed.

Lemma rate_teams_sizes blue orange result r1 r2 :
  rate_keeps_sizes rate ->
  rate_teams rate blue orange result = inr (r1, r2) ->
  length r1 = length blue /\ length r2 = length orange.
Proof.
  intros K. unfold rate_teams. destruct (0 <=? result).
  - destruct (rate (blue, orange) (0, result)) as [[a b]|] eqn:R;
      [|discriminate].
    intros H. inversion H; subst. exact (K _ _ _ _ _ R).
  - destruct (rate (orange, blue) (0, 1)) as [[a b]|] eqn:R; [|discriminate].
    intros H. inversion H; subst. destruct (K _ _ _ _ _ R). auto.
Qed.

(** *** Lines 70-94 *)

Lemma group_ratings_inl (st : Redis) (sub : MatchSubmission) e :
  group_ratings rate st sub = inl e -> e = TypeError \/ e = ValueError.
Proof.
  unfold group_ratings. destruct (version_latest st) as [lv|].
  - destruct (collect_seats _ _ _ _ _) as [e'|[[ro bl] og]] eqn:C.
    + intros H. inversion H; subst. left.
      now destruct (collect_seats_inl _ _ _ _ _ _ C).
    + destruct (rate_teams rate bl og (result sub)) as [e'|[r1 r2]] eqn:R.
      * intros H. inversion H; subst. right.
        exact (rate_teams_inl _ _ _ _ R).
      * discriminate.
  - intros H. inversion H. now left.
Qed.

Lemma group_ratings_unresolved (st : Redis) (sub : MatchSubmission) :
  Exists (unresolved (qualities st)) (rollout_data sub) ->
  group_ratings rate st sub = inl TypeError.
Proof.
  intros E. unfold group_ratings. destruct (version_latest st); [|reflexivity].
  now rewrite (collect_seats_unresolved _ _ _ _ _ E).
Qed.

(** What a pass that gets past line 94 has computed. *)
Lemma group_ratings_inr (st : Redis) (sub : MatchSubmission) ro d :
  group_ratings rate st sub = inr (ro, d) ->
  exists lv,
    version_latest st = Some lv
    /\ ro = map fst (filter (fun r => snd r =? lv) (rollout_data sub))
    /\ Forall (fun r => ~ unresolved (qualities st) r) (rollout_data sub)
    /\ (forall k, dict_mem d k = true -> has_version k sub = true)
    /\ (rate_keeps_sizes rate ->
        forall k, dict_mem d k = has_version k sub).
Proof.
  unfold group_ratings. destruct (version_latest st) as [lv|]; [|discriminate].
  destruct (collect_seats _ _ _ _ _) as [e'|[[ro' bl] og]] eqn:C;
    [discriminate|].
  destruct (rate_teams rate bl og (result sub)) as [e'|[r1 r2]] eqn:R;
    [discriminate|].
  intros H. inversion H; subst. clear H. exists lv.
  destruct (collect_seats_inr _ _ _ _ _ _ _ _ C) as (F & -> & N).
  repeat split; try assumption.
  - intros k. rewrite dict_mem_group. unfold has_version.
    apply (existsb_combine_snd (fun r : RolloutRecord => snd r =? k)).
  - intros K k. rewrite dict_mem_group. unfold has_version.
    apply (existsb_combine_full (fun r : RolloutRecord => snd r =? k)).
    destruct (rate_teams_sizes _ _ _ _ _ K R) as [L1 L2].
    rewrite length_app. lia.
Qed.

(** *** The write-back *)

Lemma process_submission_unfold (sub : MatchSubmission) (st : Redis) :
  process_submission rate sub st
  = match aggregate rate st sub with
    | inl e => Raise e st
    | inr (ro, wb) => bind (write_back wb) (fun _ => ret ro) st
    end.
Proof.
  unfold process_submission, bind, get.
  destruct (aggregate rate st sub) as [e|[ro wb]]; reflexivity.
Qed.

Lemma length_list_set {A} (l : list A) : forall n v,
  length (list_set l n v) = length l.
Proof.
  induction l as [|h t IH]; intros [|n] v; simpl; auto.
Qed.

Lemma redis_index_length {A B} (l : list A) (l' : list B) i :
  length l = length l' -> redis_index l i = redis_index l' i.
Proof. unfold redis_index. now intros ->. Qed.

Lemma lindex_nonneg {A} (l : list A) k :
  0 <= k -> lindex l k = nth_error l (Z.to_nat k).
Proof.
  intros H. unfold lindex, redis_index.
  destruct (Z.leb_spec 0 k); [|lia].
  destruct (Z.ltb_spec k (Z.of_nat (length l))); [reflexivity|].
  symmetry. apply nth_error_None. lia.
Qed.

Lemma lindex_Some_index {A} (l : list A) i :
  lindex l i <> None -> redis_index l i <> None.
Proof. unfold lindex. destruct (redis_index l i); congruence. Qed.

(** [LSET] on an index that [LINDEX] resolves does not fail, and the write
    keeps every key but QUALITIES and keeps the length of QUALITIES. *)
Lemma write_back_ok (wb : list (Z * Rating)) : forall st : Redis,
  Forall (fun p => redis_index (qualities st) (fst p) <> None) wb ->
  exists q,
    write_back wb st = Ok tt (set_qualities st q)
    /\ length q = length (qualities st).
Proof.
  induction wb as [|[version avg] wb IH]; intros st F.
  - exists (qualities st). split; [|reflexivity]. destruct st; reflexivity.
  - inversion F as [|? ? Hv Fw]; subst. simpl in Hv.
    simpl. unfold bind, lset_qualities, bind, get, lset.
    destruct (redis_index (qualities st) version) as [n|] eqn:I;
      [|congruence].
    unfold put.
    destruct (IH (set_qualities st (list_set (qualities st) n avg)))
      as (q & W & L).
    + simpl. revert Fw. apply Forall_impl. intros p.
      rewrite (redis_index_length (list_set (qualities st) n avg)
                                  (qualities st)); [auto|].
      apply length_list_set.
    + exists q. split.
      * rewrite W. reflexivity.
      * rewrite L. simpl. apply length_list_set.
Qed.

Lemma nth_error_list_set_0 {A} (l : list A) n v :
  (0 < n)%nat -> nth_error (list_set l n v) 0 = nth_error l 0.
Proof. destruct l, n; simpl; auto; lia. Qed.

Lemma write_back_head (wb : list (Z * Rating)) : forall st st' : Redis,
  Forall (fun p => 0 < fst p) wb ->
  write_back wb st = Ok tt st' ->
  nth_error (qualities st') 0 = nth_error (qualities st) 0.
Proof.
  induction wb as [|[version avg] wb IH]; intros st st' F; simpl.
  - unfold ret. intros H. inversion H. reflexivity.
  - inversion F as [|? ? Hv Fw]; subst. simpl in Hv.
    unfold bind at 1. unfold lset_qualities, bind, get, lset, redis_index.
    destruct (Z.leb_spec 0 version); [|lia].
    destruct (version <? Z.of_nat (length (qualities st))); simpl.
    + intros W. pose proof (IH _ _ Fw W) as E.
      change (nth_error (qualities st') 0 = nth_error (qualities st) 0).
      rewrite E. cbn [qualities set_qualities].
      apply nth_error_list_set_0. lia.
    + unfold raise. discriminate.
Qed.


(** *** One pass of the loop *)

Lemma aggregate_inr (st : Redis) (sub : MatchSubmission) ro wb :
  aggregate rate st sub = inr (ro, wb) ->
  exists d d',
    group_ratings rate st sub = inr (ro, d)
    /\ dict_del d 0 = Some d'
    /\ wb = write_back_map d'.
Proof.
  unfold aggregate.
  destruct (group_ratings rate st sub) as [e|[ro' d]]; [discriminate|].
  destruct (dict_del d 0) as [d'|] eqn:D; [|discriminate].
  intros H. inversion H; subst. eauto.
Qed.

Lemma has_version_In k (sub : MatchSubmission) :
  has_version k sub = true <-> In k (map snd (rollout_data sub)).
Proof.
  unfold has_version. rewrite existsb_exists, in_map_iff. split.
  - intros [r [I E]]. exists r. apply Z.eqb_eq in E. auto.
  - intros [r [E I]]. exists r. split; [assumption|]. now apply Z.eqb_eq.
Qed.

(** The keys of the write-back map are versions of the submission, and
    0 is not among them. *)
Lemma aggregate_keys (st : Redis) (sub : MatchSubmission) ro wb k :
  aggregate rate st sub = inr (ro, wb) ->
  In k (map fst wb) ->
  k <> 0 /\ In k (map snd (rollout_data sub))
  /\ lindex (qualities st) k <> None.
Proof.
  intros A I. destruct (aggregate_inr _ _ _ _ A) as (d & d' & G & D & ->).
  rewrite write_back_map_keys in I.
  apply (dict_del_keys _ _ _ _ D) in I. destruct I as [I N].
  destruct (group_ratings_inr _ _ _ _ G) as (lv & _ & _ & F & Hk & _).
  apply dict_mem_In, Hk, has_version_In in I.
  repeat split; try assumption.
  rewrite Forall_forall in F. apply in_map_iff in I.
  destruct I as [r [<- I]]. exact (F r I).
Qed.

(** A pass that gets to the write-back completes: every [LSET] goes to an
    index that [LINDEX] resolved in the first loop. *)
Lemma process_submission_completes (st : Redis) (sub : MatchSubmission) ro wb :
  aggregate rate st sub = inr (ro, wb) ->
  exists q,
    process_submission rate sub st = Ok ro (set_qualities st q)
    /\ length q = length (qualities st).
Proof.
  intros A. rewrite process_submission_unfold, A.
  destruct (write_back_ok wb st) as (q & W & L).
  - apply Forall_forall. intros [k avg] I. simpl.
    apply lindex_Some_index.
    apply (aggregate_keys _ _ _ _ k A).
    apply in_map_iff. exists (k, avg). auto.
  - exists q. unfold bind. rewrite W. auto.
Qed.

Lemma process_submission_Ok (st st' : Redis) (sub : MatchSubmission) ts :
  process_submission rate sub st = Ok ts st' ->
  exists wb,
    aggregate rate st sub = inr (ts, wb) /\ write_back wb st = Ok tt st'.
Proof.
  rewrite process_submission_unfold.
  destruct (aggregate rate st sub) as [e|[ro wb]]; [discriminate|].
  unfold bind. destruct (write_back wb st) as [[] s|e s] eqn:W;
    [|discriminate].
  unfold ret. intros H. inversion H; subst. eauto.
Qed.

Lemma process_submission_Raise (st st' : Redis) (sub : MatchSubmission) e :
  process_submission rate sub st = Raise e st' ->
  aggregate rate st sub = inl e /\ st' = st.
Proof.
  intros H. destruct (aggregate rate st sub) as [e'|[ro wb]] eqn:A.
  - rewrite process_submission_unfold, A in H. inversion H. auto.
  - destruct (process_submission_completes _ _ _ _ A) as (q & P & _).
    congruence.
Qed.

(** A pass without a seat of version 0 raises, whatever [rate] is. *)
Lemma no_version0_raises (st : Redis) (sub : MatchSubmission) :
  has_version 0 sub = false ->
  exists e, process_submission rate sub st = Raise e st.
Proof.
  intros H0. rewrite process_submission_unfold. unfold aggregate.
  destruct (group_ratings rate st sub) as [e|[ro d]] eqn:G; [eauto|].
  destruct (group_ratings_inr _ _ _ _ G) as (lv & _ & _ & _ & Hk & _).
  unfold dict_del. destruct (dict_mem d 0) eqn:Dm; [|eauto].
  apply Hk in Dm. congruence.
Qed.

(** What a completed pass yields: the rollouts of the latest version, in
    the order of the submission. *)
Lemma process_submission_yields (st st' : Redis) (sub : MatchSubmission) ts :
  process_submission rate sub st = Ok ts st' ->
  exists lv,
    version_latest st = Some lv
    /\ ts = map fst (filter (fun r => snd r =? lv) (rollout_data sub)).
Proof.
  intros P. destruct (process_submission_Ok _ _ _ _ P) as (wb & A & _).
  destruct (aggregate_inr _ _ _ _ A) as (d & d' & G & _).
  destruct (group_ratings_inr _ _ _ _ G) as (lv & V & R & _).
  eauto.
Qed.

(** With versions that are not negative, a pass leaves the first entry of
    QUALITIES as it was. *)
Lemma baseline_rating_kept (st st' : Redis) (sub : MatchSubmission) ts :
  Forall (fun r => 0 <= snd r) (rollout_data sub) ->
  process_submission rate sub st = Ok ts st' ->
  nth_error (qualities st') 0 = nth_error (qualities st) 0.
Proof.
  intros Pos P. destruct (process_submission_Ok _ _ _ _ P) as (wb & A & W).
  apply (write_back_head wb st st'); [|assumption].
  apply Forall_forall. intros [k avg] I.
  destruct (aggregate_keys st sub ts wb k A) as (N & Iv & _).
  { apply in_map_iff. exists (k, avg). auto. }
  apply in_map_iff in Iv. destruct Iv as [r [E Ir]].
  rewrite Forall_forall in Pos. specialize (Pos r Ir). simpl. lia.
Qed.

(** With a [rate] that keeps the sizes of the groups, the write-back
    covers every version of the submission but 0, the stale ones
    included. *)
Lemma write_back_covers_versions (st : Redis) (sub : MatchSubmission) ro wb k :
  rate_keeps_sizes rate ->
  aggregate rate st sub = inr (ro, wb) ->
  In k (map fst wb) <-> k <> 0 /\ has_version k sub = true.
Proof.
  intros K A. destruct (aggregate_inr _ _ _ _ A) as (d & d' & G & D & ->).
  rewrite write_back_map_keys, (dict_del_keys _ _ _ _ D).
  destruct (group_ratings_inr _ _ _ _ G) as (lv & _ & _ & _ & _ & Hk).
  rewrite <- dict_mem_In, (Hk K k). tauto.
Qed.

Lemma generate_rollouts_from_raise (st : Redis) (sub : MatchSubmission) rest e :
  process_submission rate sub (set_rollouts st rest)
    = Raise e (set_rollouts st rest) ->
  generate_rollouts_from rate (sub :: rest) st
    = ([], Crashed e, set_rollouts st rest).
Proof. intros H. simpl. now rewrite H. Qed.

(** ** The claims about [generate_rollouts] *)

(** C1, as the code has it. A pass completes only on a submission all of
    whose versions have an entry in QUALITIES. A submission with a version
    that has none makes the lookup of line 79 raise [TypeError]: nothing is
    written and nothing is yielded for it, the exception leaves
    [generate_rollouts], and the submissions queued behind it stay in the
    queue. *)
Theorem missing_rating_ends_generator (st : Redis) (sub : MatchSubmission) :
  (forall ts st',
      process_submission rate sub st = Ok ts st' ->
      Forall (fun r => lindex (qualities st) (snd r) <> None)
             (rollout_data sub))
  /\ (Exists (fun r => lindex (qualities st) (snd r) = None)
             (rollout_data sub) ->
      process_submission rate sub st = Raise TypeError st
      /\ forall rest,
           generate_rollouts_from rate (sub :: rest) st
           = ([], Crashed TypeError, set_rollouts st rest)).
Proof.
  split.
  - intros ts st' P. destruct (process_submission_Ok _ _ _ _ P) as (wb & A & _).
    destruct (aggregate_inr _ _ _ _ A) as (d & d' & G & _).
    destruct (group_ratings_inr _ _ _ _ G) as (lv & _ & _ & F & _).
    exact F.
  - intros E.
    assert (R : forall s : Redis, qualities s = qualities st ->
                process_submission rate sub s = Raise TypeError s).
    { intros s Q. rewrite process_submission_unfold. unfold aggregate.
      rewrite group_ratings_unresolved; [reflexivity|]. now rewrite Q. }
    split; [now apply R|].
    intros rest. apply generate_rollouts_from_raise. now apply R.
Qed.

(** C6, as the code has it. Whatever the store and the submission, a pass
    either raises before it writes anything, or it issues exactly the
    [LSET]s of its write-back map, and 0 is not a key of that map. For a
    submission whose versions are not negative the entry of version 0 is
    then left as it was, however the pass ends. (Redis resolves a negative
    index from the tail of the list, so the key [- len(QUALITIES)] targets
    that entry.) *)
Theorem version0_never_written (st : Redis) (sub : MatchSubmission) :
  match aggregate rate st sub with
  | inl e => process_submission rate sub st = Raise e st
  | inr (ro, wb) =>
      ~ In 0 (map fst wb)
      /\ process_submission rate sub st
         = bind (write_back wb) (fun _ => ret ro) st
  end
  /\ (Forall (fun r => 0 <= snd r) (rollout_data sub) ->
      lindex (qualities (final_state (process_submission rate sub st))) 0
      = lindex (qualities st) 0).
Proof.
  split.
  - rewrite process_submission_unfold.
    destruct (aggregate rate st sub) as [e|[ro wb]] eqn:A; [reflexivity|].
    split; [|reflexivity].
    intros I. now destruct (aggregate_keys _ _ _ _ 0 A I).
  - intros Pos. rewrite !lindex_nonneg by lia.
    destruct (process_submission rate sub st) as [ts st'|e st'] eqn:P.
    + exact (baseline_rating_kept _ _ _ _ Pos P).
    + now destruct (process_submission_Raise _ _ _ _ P) as [_ ->].
Qed.

(** C7, as the code has it. A pass on a submission without a seat of
    version 0 raises, writes nothing and yields nothing; a pass completes
    only when some seat has version 0; and the exception is the [KeyError]
    of [del versions[0]] exactly when no seat has version 0 and lines 70-94
    (the lookups and [rate]) went through. *)
Theorem delete_version0_raises (st : Redis) (sub : MatchSubmission) :
  rate_keeps_sizes rate ->
  (has_version 0 sub = false ->
   exists e, process_submission rate sub st = Raise e st)
  /\ (forall ts st',
        process_submission rate sub st = Ok ts st' ->
        has_version 0 sub = true)
  /\ (raised (process_submission rate sub st) = Some KeyError <->
      has_version 0 sub = false
      /\ exists ro d, group_ratings rate st sub = inr (ro, d)).
Proof.
  intros K. split; [apply no_version0_raises|]. split.
  - intros ts st' P. destruct (has_version 0 sub) eqn:H0; [reflexivity|].
    destruct (no_version0_raises st sub H0) as [e R]. congruence.
  - split.
    + intros R.
      destruct (process_submission rate sub st) as [ts s|e s] eqn:P;
        [discriminate|].
      simpl in R. inversion R; subst e.
      destruct (process_submission_Raise _ _ _ _ P) as [A _].
      unfold aggregate in A.
      destruct (group_ratings rate st sub) as [e|[ro d]] eqn:G.
      * inversion A; subst e.
        destruct (group_ratings_inl _ _ _ G); discriminate.
      * destruct (group_ratings_inr _ _ _ _ G) as (lv & _ & _ & _ & _ & Hk).
        unfold dict_del in A. rewrite (Hk K 0) in A.
        destruct (has_version 0 sub); [discriminate|]. eauto.
    + intros [H0 (ro & d & G)].
      rewrite process_submission_unfold. unfold aggregate. rewrite G.
      destruct (group_ratings_inr _ _ _ _ G) as (lv & _ & _ & _ & Hk & _).
      unfold dict_del. destruct (dict_mem d 0) eqn:Dm; [|reflexivity].
      apply Hk in Dm. congruence.
Qed.

End GeneratorFacts.

(** * Facts about the rating call and the snapshots *)

Section UpdateFacts.

Context {Params Traj : Type}.
Variable rate :
  list Rating * list Rating -> Z * Z -> option (list Rating * list Rating).

Local Abbreviation Redis := (@Redis Params Traj).

(** C3. For a result that is not negative, blue is passed first with rank
    0 and orange with the result as its rank. For a negative result the
    groups are passed the other way round, orange as the rank-0 group; and
    as [rate] looks only at the order of the ranks, the outcome is the one
    of the non-negative case on (orange, blue, -result), with the two new
    groups handed back in the order blue, orange. *)
Theorem rate_teams_sign_symmetric (blue orange : list Rating) (result : Z) :
  rate_by_order rate ->
  (0 <= result ->
   rate_teams rate blue orange result
   = match rate (blue, orange) (0, result) with
     | Some (r1, r2) => inr (r1, r2)
     | None => inl ValueError
     end)
  /\ (result < 0 ->
      rate_teams rate blue orange result
      = swap_teams (rate_teams rate orange blue (- result))).
Proof.
  intros O. unfold rate_teams. split; intros H.
  - destruct (Z.leb_spec 0 result); [reflexivity|lia].
  - destruct (Z.leb_spec 0 result); [lia|].
    destruct (Z.leb_spec 0 (- result)); [|lia].
    rewrite (O (orange, blue) (- result)) by lia.
    destruct (rate (orange, blue) (0, 1)) as [[r2 r1]|]; reflexivity.
Qed.

(** *** [_add_opponent] *)

(** On an empty rating list nothing is logged: the model and the rating
    [Rating(0)] are pushed. *)
Lemma add_opponent_first (self : Generator) (agent : Params) (st : Redis) :
  qualities st = [] ->
  _add_opponent self agent st
  = Ok self (set_qualities
               (set_opponent_models st (rpush (opponent_models st) agent))
               [Rating_mu 0]).
Proof.
  destruct st as [qs ml ro vl om wi]. cbn [qualities]. intros ->.
  reflexivity.
Qed.

(** On a rating list that is not empty the model is pushed and the logging
    raises: lines 114-117 are not reached. *)
Lemma add_opponent_raises (self : Generator) (agent : Params) (st : Redis) :
  qualities st <> [] ->
  _add_opponent self agent st
  = Raise (match logger self with
           | None => AttributeError
           | Some _ => TypeError
           end)
          (set_opponent_models st (rpush (opponent_models st) agent)).
Proof.
  destruct st as [qs ml ro vl om wi]. cbn [qualities]. intros N.
  destruct qs as [|r rs]; [congruence|].
  unfold _add_opponent, bind, get, put. cbn.
  destruct (logger self); reflexivity.
Qed.

Lemma add_opponent_Ok (self self' : Generator) (agent : Params)
    (st st' : Redis) :
  _add_opponent self agent st = Ok self' st' ->
  qualities st = []
  /\ self' = self
  /\ st' = set_qualities
             (set_opponent_models st (rpush (opponent_models st) agent))
             [Rating_mu 0].
Proof.
  destruct (qualities st) as [|r rs] eqn:Q.
  - rewrite add_opponent_first by exact Q. intros H. inversion H. auto.
  - rewrite add_opponent_raises by (rewrite Q; discriminate). discriminate.
Qed.

Lemma add_opponent_final (self : Generator) (agent : Params) (st : Redis) :
  exists q : list Rating,
    final_state (_add_opponent self agent st)
    = set_qualities
        (set_opponent_models st (rpush (opponent_models st) agent))
        (qualities st ++ q)
    /\ (length q <= 1)%nat
    /\ (q = [] \/ qualities st = [] /\ q = [Rating_mu 0]).
Proof.
  destruct (qualities st) as [|r rs] eqn:Q.
  - rewrite add_opponent_first by exact Q. exists [Rating_mu 0].
    split; [reflexivity|]. split; [simpl; lia|]. right. auto.
  - rewrite add_opponent_raises by (rewrite Q; discriminate).
    exists []. rewrite app_nil_r. cbn [final_state].
    split; [|split; [simpl; lia|now left]].
    destruct st as [qs ml ro vl om wi]. cbn in Q. subst qs. reflexivity.
Qed.

(** *** [update_parameters] *)

Lemma update_parameters_Ok (self self' : Generator) (p : Params)
    (st st' : Redis) :
  update_parameters self p st = Ok self' st' ->
  n_updates self' = n_updates self + 1
  /\ save_every self' = save_every self
  /\ logger self' = logger self
  /\ save_every self <> 0
  /\ let grow :=
       if n_updates self mod save_every self =? 0 then 1%nat else 0%nat in
     length (opponent_models st') = (length (opponent_models st) + grow)%nat
     /\ length (qualities st') = (length (qualities st) + grow)%nat.
Proof.
  unfold update_parameters, bind at 1 2 3 4, get, put. simpl.
  destruct (Z.eqb_spec (save_every self) 0) as [E|N].
  { unfold bind, raise. discriminate. }
  destruct (n_updates self mod save_every self =? 0).
  - unfold bind.
    destruct (_add_opponent self p _) as [g s|e s] eqn:A; [|discriminate].
    unfold ret. intros H. inversion H; subst. clear H.
    destruct (add_opponent_Ok _ _ _ _ _ A) as (Q & -> & ->).
    cbn in Q. cbn. rewrite Q. unfold rpush. rewrite !length_app. simpl.
    repeat split; auto; lia.
  - unfold bind, ret. intros H. inversion H; subst. simpl.
    repeat split; auto; lia.
Qed.

(** The store a call leaves, however it ends: the one with the model and
    the version published, or what [_add_opponent] made of it. *)
Lemma update_final_cases (self : Generator) (p : Params) (st : Redis) :
  let s := set_version_latest (set_model_latest st (Some p))
                              (Some (n_updates self)) in
  final_state (update_parameters self p st) = s
  \/ final_state (update_parameters self p st)
     = final_state (_add_opponent self p s).
Proof.
  cbv zeta. unfold update_parameters, bind at 1 2 3 4, get, put.
  destruct (save_every self =? 0); [left; reflexivity|].
  destruct (n_updates self mod save_every self =? 0).
  - right. unfold bind. now destruct (_add_opponent self p _).
  - left. reflexivity.
Qed.

Lemma update_final_model (self : Generator) (p : Params) (st : Redis) :
  model_latest (final_state (update_parameters self p st)) = Some p
  /\ worker_ids (final_state (update_parameters self p st)) = worker_ids st.
Proof.
  destruct (update_final_cases self p st) as [->| ->]; [split; reflexivity|].
  destruct (add_opponent_final self p
              (set_version_latest (set_model_latest st (Some p))
                                  (Some (n_updates self)))) as (q & -> & _).
  split; reflexivity.
Qed.

(** The pool a call leaves, however it ends. *)
Lemma update_final_pool (self : Generator) (p : Params) (st : Redis) :
  save_every self <> 0 ->
  opponent_models (final_state (update_parameters self p st))
  = opponent_models st
    ++ (if n_updates self mod save_every self =? 0 then [p] else []).
Proof.
  intros N. unfold update_parameters, bind at 1 2 3 4, get, put.
  destruct (Z.eqb_spec (save_every self) 0) as [E|_]; [contradiction|].
  destruct (n_updates self mod save_every self =? 0).
  - unfold bind.
    destruct (add_opponent_final self p
                (set_version_latest (set_model_latest st (Some p))
                                    (Some (n_updates self))))
      as (q & F & _).
    destruct (_add_opponent self p _) as [g s|e s]; cbn [final_state] in *;
      subst s; reflexivity.
  - cbn. now rewrite app_nil_r.
Qed.

Lemma update_parameters_pool (self self' : Generator) (p : Params)
    (st st' : Redis) :
  update_parameters self p st = Ok self' st' ->
  model_latest st' = Some p
  /\ version_latest st' = Some (n_updates self)
  /\ opponent_models st'
     = opponent_models st
       ++ (if n_updates self mod save_every self =? 0 then [p] else []).
Proof.
  intros U.
  destruct (update_parameters_Ok _ _ _ _ _ U) as (_ & _ & _ & N & _).
  pose proof (update_final_pool self p st N) as Ho.
  pose proof (update_final_model self p st) as [Hm _].
  rewrite U in Ho, Hm. cbn [final_state] in Ho, Hm.
  split; [exact Hm|]. split; [|exact Ho].
  destruct (update_final_cases self p st) as [F|F]; rewrite U in F;
    cbn [final_state] in F; rewrite F; [reflexivity|].
  destruct (add_opponent_final self p
              (set_version_latest (set_model_latest st (Some p))
                                  (Some (n_updates self)))) as (q & -> & _).
  reflexivity.
Qed.

(** A call made when [n_updates] is not a multiple of [save_every] only
    publishes. *)
Lemma update_parameters_quiet (g : Generator) (p : Params) (s : Redis) :
  save_every g <> 0 ->
  n_updates g mod save_every g <> 0 ->
  update_parameters g p s
  = Ok (mkGenerator (n_updates g + 1) (save_every g) (logger g))
       (set_version_latest (set_model_latest s (Some p))
                           (Some (n_updates g))).
Proof.
  intros N Q. unfold update_parameters, bind at 1 2 3 4, get, put.
  destruct (Z.eqb_spec (save_every g) 0) as [E|_]; [contradiction|].
  destruct (Z.eqb_spec (n_updates g mod save_every g) 0) as [E|_];
    [contradiction|].
  reflexivity.
Qed.

(** *** Runs of updates *)

Lemma append_positions_S (se : Z) (from k : nat) :
  append_positions se from (S k)
  = append_positions se from k
    ++ (if Z.of_nat (from + k) mod se =? 0 then [(from + k)%nat] else []).
Proof.
  unfold append_positions. rewrite seq_S, filter_app. reflexivity.
Qed.

Lemma append_positions_cons (se : Z) (from k : nat) :
  length (append_positions se from (S k))
  = ((if (Z.of_nat from mod se =? 0)%Z then 1 else 0)
     + length (append_positions se (S from) k))%nat.
Proof.
  unfold append_positions. simpl.
  destruct (Z.of_nat from mod se =? 0); reflexivity.
Qed.

Lemma append_positions_head (se : Z) (from k : nat) :
  append_positions se from (S k)
  = (if Z.of_nat from mod se =? 0 then [from] else [])
    ++ append_positions se (S from) k.
Proof.
  unfold append_positions. cbn [seq filter].
  now destruct (Z.of_nat from mod se =? 0).
Qed.

(** Among the first [k] positions, [ceil(k / 10)] are multiples of 10. *)
Lemma append_positions_10 (k : nat) :
  length (append_positions 10 0 k) = ((k + 9) / 10)%nat.
Proof.
  induction k as [|k IH]; [reflexivity|].
  rewrite append_positions_S, length_app, IH. simpl (0 + k)%nat.
  assert (Hk : Z.of_nat (k mod 10) = Z.of_nat k mod 10)
    by (rewrite Nat2Z.inj_mod; reflexivity).
  pose proof (Nat.div_mod_eq (k + 9) 10) as D9.
  pose proof (Nat.mod_upper_bound (k + 9) 10) as B9.
  pose proof (Nat.div_mod_eq k 10) as D.
  pose proof (Nat.mod_upper_bound k 10) as B.
  destruct (Z.eqb_spec (Z.of_nat k mod 10) 0) as [E|E]; simpl length.
  - apply Nat.div_unique with (r := 0%nat); lia.
  - apply Nat.div_unique with (r := ((k + 9) mod 10 + 1)%nat); lia.
Qed.

Lemma update_many_Ok (params : nat -> Params) (k : nat) :
  forall (from : nat) (self self' : Generator) (st st' : Redis),
  n_updates self = Z.of_nat from ->
  update_many params from k self st = Ok self' st' ->
  n_updates self' = Z.of_nat (from + k)
  /\ length (opponent_models st')
     = (length (opponent_models st)
        + length (append_positions (save_every self) from k))%nat
  /\ length (qualities st')
     = (length (qualities st)
        + length (append_positions (save_every self) from k))%nat.
Proof.
  induction k as [|k IH]; intros from self self' st st' E.
  - simpl. unfold ret. intros H. inversion H; subst. simpl.
    repeat split; lia.
  - cbn [update_many]. unfold bind at 1.
    destruct (update_parameters self (params from) st) as [g s|e s] eqn:U;
      [|discriminate].
    intros M.
    destruct (update_parameters_Ok _ _ _ _ _ U) as (Hn & Hs & _ & _ & Ho & Hq).
    destruct (IH (S from) g self' s st') as (Mn & Mo & Mq); [lia|exact M|].
    rewrite append_positions_cons, Mo, Mq, Ho, Hq, Hs, E.
    repeat split; try lia.
    all: destruct (Z.of_nat from mod save_every self =? 0); lia.
Qed.

Lemma update_many_pool (params : nat -> Params) (k : nat) :
  forall (from : nat) (self self' : Generator) (st st' : Redis),
  n_updates self = Z.of_nat from ->
  update_many params from (S k) self st = Ok self' st' ->
  model_latest st' = Some (params (from + k)%nat)
  /\ version_latest st' = Some (Z.of_nat (from + k))
  /\ opponent_models st'
     = opponent_models st
       ++ map params (append_positions (save_every self) from (S k)).
Proof.
  induction k as [|k IH]; intros from self self' st st' E.
  - cbn [update_many]. unfold bind.
    destruct (update_parameters self (params from) st) as [g s|e s] eqn:U;
      [|discriminate].
    unfold ret. intros H. inversion H; subst.
    destruct (update_parameters_pool _ _ _ _ _ U) as (Hm & Hv & Ho).
    rewrite Nat.add_0_r, Hm, Hv, Ho, E. repeat split.
    rewrite append_positions_head.
    change (append_positions (save_every self) (S from) 0) with (@nil nat).
    rewrite app_nil_r. now destruct (Z.of_nat from mod save_every self =? 0).
  - intros M. change (update_many params from (S (S k)) self st)
      with (bind (update_parameters self (params from))
                 (update_many params (S from) (S k)) st) in M.
    unfold bind in M.
    destruct (update_parameters self (params from) st) as [g s|e s] eqn:U;
      [|discriminate].
    destruct (update_parameters_Ok _ _ _ _ _ U) as (Hn & Hs & _).
    destruct (update_parameters_pool _ _ _ _ _ U) as (_ & _ & Ho).
    destruct (IH (S from) g self' s st') as (Mm & Mv & Mo); [lia|exact M|].
    replace (from + S k)%nat with (S from + k)%nat by lia.
    rewrite Mm, Mv, Mo, Ho, Hs, E. repeat split.
    rewrite <- app_assoc. f_equal.
    rewrite (append_positions_head (save_every self) from (S k)), map_app.
    f_equal. now destruct (Z.of_nat from mod save_every self =? 0).
Qed.

Lemma update_many_app (params : nat -> Params) (a b : nat) :
  forall (from : nat) (g : Generator) (s : Redis),
  update_many params from (a + b) g s
  = match update_many params from a g s with
    | Ok g' s' => update_many params (from + a) b g' s'
    | Raise e s' => Raise e s'
    end.
Proof.
  induction a as [|a IH]; intros from g s.
  - simpl. unfold ret. now rewrite Nat.add_0_r.
  - cbn [Nat.add update_many]. unfold bind.
    destruct (update_parameters g (params from) s) as [g1 s1|e s1];
      [|reflexivity].
    rewrite IH. now replace (S from + a)%nat with (from + S a)%nat by lia.
Qed.

Lemma update_many_quiet (params : nat -> Params) (m : nat) :
  forall (from : nat) (g : Generator) (s : Redis),
  save_every g <> 0 ->
  n_updates g = Z.of_nat from ->
  (forall j, (from <= j < from + m)%nat ->
             Z.of_nat j mod save_every g <> 0) ->
  exists s',
    update_many params from m g s
    = Ok (mkGenerator (Z.of_nat (from + m)) (save_every g) (logger g)) s'
    /\ qualities s' = qualities s
    /\ opponent_models s' = opponent_models s.
Proof.
  induction m as [|m IH]; intros from g s N E Q.
  - exists s. simpl. unfold ret. rewrite Nat.add_0_r, <- E.
    destruct g; auto.
  - cbn [update_many]. unfold bind.
    rewrite update_parameters_quiet; [|exact N|rewrite E; apply Q; lia].
    destruct (IH (S from)
                 (mkGenerator (n_updates g + 1) (save_every g) (logger g))
                 (set_version_latest (set_model_latest s (Some (params from)))
                                     (Some (n_updates g))))
      as (s' & U & Hq & Ho).
    + exact N.
    + simpl. lia.
    + intros j Hj. simpl. apply Q. lia.
    + exists s'. cbn [save_every logger] in U.
      replace (S from + m)%nat with (from + S m)%nat in U by lia.
      rewrite U. simpl in Hq, Ho. repeat split; assumption.
Qed.

(** On a cleared store and with [save_every >= 1], the first call pushes
    the first snapshot with the rating [Rating(0)], and the calls up to the
    [save_every]-th return without pushing anything, with a logger or
    without. *)
Lemma first_updates_return (params : nat -> Params) (se : Z)
    (lg : option (list (list Q))) (m : nat) :
  1 <= se -> Z.of_nat m < se ->
  exists s' : Redis,
    update_many params 0 (1 + m) (mkGenerator 0 se lg) empty_redis
    = Ok (mkGenerator (Z.of_nat (1 + m)) se lg) s'
    /\ qualities s' = [Rating_mu 0]
    /\ opponent_models s' = [params 0%nat].
Proof.
  intros H Hm.
  assert (First : update_many params 0 1 (mkGenerator 0 se lg)
                              (@empty_redis Params Traj)
                  = Ok (mkGenerator 1 se lg)
                       (mkRedis [Rating_mu 0] (Some (params 0%nat)) []
                                (Some 0) [params 0%nat] [])).
  { cbn [update_many]. unfold bind at 1.
    unfold update_parameters, bind at 1 2 3 4, get, put. cbn.
    destruct (Z.eqb_spec se 0) as [E|_]; [lia|].
    reflexivity. }
  rewrite update_many_app, First.
  destruct (update_many_quiet params m 1 (mkGenerator 1 se lg)
              (mkRedis [Rating_mu 0] (Some (params 0%nat)) []
                       (Some 0) [params 0%nat] []))
    as (s' & U & Hq & Ho).
  - simpl. lia.
  - reflexivity.
  - intros j Hj. simpl. rewrite Z.mod_small; lia.
  - exists s'. simpl in U. auto.
Qed.

(** C5, as the code has it. [n_updates] starts at 0, counts the calls that
    returned and is tested before it is incremented. With [save_every = 10]
    a call pushes its model to the pool exactly when it is made at a count
    that is a multiple of 10, however the call then ends, and a call that
    returns has pushed as many ratings as snapshots. On a cleared store the
    first ten calls return: the 1st has pushed the first snapshot and the
    calls to the 10th nothing, so after [k] calls that returned the pool
    holds the models of the positions below [k] that are multiples of 10,
    [ceil(k / 10)] of them, and the rating list is as long. *)
Theorem snapshot_cadence (params : nat -> Params)
    (lg : option (list (list Q))) (st0 : Redis) :
  exists self0,
    RedisRolloutGenerator_init 10 lg true st0 = Ok self0 empty_redis
    /\ n_updates self0 = 0
    /\ (forall self p (st : Redis),
          save_every self = 10 ->
          opponent_models (final_state (update_parameters self p st))
          = opponent_models st
            ++ (if n_updates self mod 10 =? 0 then [p] else []))
    /\ (forall self p (st : Redis) self' st',
          save_every self = 10 ->
          update_parameters self p st = Ok self' st' ->
          n_updates self' = n_updates self + 1
          /\ length (qualities st')
             = (length (qualities st)
                + (if (n_updates self mod 10 =? 0)%Z then 1 else 0))%nat)
    /\ (forall k self (st : Redis),
          update_many params 0 k self0 empty_redis = Ok self st ->
          n_updates self = Z.of_nat k
          /\ opponent_models st = map params (append_positions 10 0 k)
          /\ length (qualities st) = length (append_positions 10 0 k)
          /\ length (append_positions 10 0 k) = ((k + 9) / 10)%nat)
    /\ (forall k, (k <= 10)%nat ->
          exists self (st : Redis),
            update_many params 0 k self0 empty_redis = Ok self st).
Proof.
  exists (mkGenerator 0 10 lg). split; [reflexivity|]. split; [reflexivity|].
  split; [|split; [|split]].
  - intros self p st E. rewrite <- E. apply update_final_pool. lia.
  - intros self p st self' st' E U.
    destruct (update_parameters_Ok _ _ _ _ _ U) as (Hn & _ & _ & _ & _ & Hq).
    rewrite E in Hq. split; [exact Hn|exact Hq].
  - intros k self st U.
    destruct (update_many_Ok params k 0 (mkGenerator 0 10 lg) self
                             empty_redis st eq_refl U) as (Hn & _ & Hq).
    simpl in Hn, Hq. split; [exact Hn|]. split; [|split].
    + destruct k as [|k].
      * simpl in U. unfold ret in U. now inversion U.
      * now destruct (update_many_pool params k 0 (mkGenerator 0 10 lg) self
                        empty_redis st eq_refl U) as (_ & _ & Ho).
    + exact Hq.
    + apply append_positions_10.
  - intros k Hk. destruct k as [|k].
    + exists (mkGenerator 0 10 lg), empty_redis. reflexivity.
    + destruct (first_updates_return params 10 lg k) as (s' & U & _);
        [lia|lia|]. eauto.
Qed.

(** C8, as the code has it. QUALITIES and OPPONENT_MODELS are pushed to
    together and only in [_add_opponent], so they have the same length:
    after a construction with [clear], after every [_add_opponent] and every
    [update_parameters] that returns, when they had before, and so after
    any number of updates that return on a cleared store. *)
Theorem ratings_parallel_to_pool :
  (forall se lg (st : Redis),
      exists self st',
        RedisRolloutGenerator_init se lg true st = Ok self st'
        /\ length (qualities st') = length (opponent_models st'))
  /\ (forall self agent (st : Redis) self' st',
        length (qualities st) = length (opponent_models st) ->
        _add_opponent self agent st = Ok self' st' ->
        length (qualities st') = length (opponent_models st'))
  /\ (forall self p (st : Redis) self' st',
        length (qualities st) = length (opponent_models st) ->
        update_parameters self p st = Ok self' st' ->
        length (qualities st') = length (opponent_models st'))
  /\ (forall se lg params k self (st : Redis),
        update_many params 0 k (mkGenerator 0 se lg) empty_redis = Ok self st ->
        length (qualities st) = length (opponent_models st)).
Proof.
  split; [|split; [|split]].
  - intros se lg st. exists (mkGenerator 0 se lg), empty_redis.
    split; reflexivity.
  - intros self agent st self' st' E A.
    destruct (add_opponent_Ok _ _ _ _ _ A) as (Q & _ & ->).
    rewrite Q in E. simpl. unfold rpush. rewrite length_app, <- E.
    reflexivity.
  - intros self p st self' st' E U.
    destruct (update_parameters_Ok _ _ _ _ _ U) as (_ & _ & _ & _ & Ho & Hq).
    lia.
  - intros se lg params k self st U.
    destruct (update_many_Ok params k 0 (mkGenerator 0 se lg) self
                             empty_redis st eq_refl U) as (_ & Ho & Hq).
    simpl in Ho, Hq. lia.
Qed.

End UpdateFacts.

(** * Facts about the worker *)

Section WorkerFacts.

Context {Params Traj : Type}.
Variable log10 : Q.
Variable expq : Q -> Q.
Variable shuffle : list (@Seat Params) -> list (@Seat Params).
Variable generate_episode : list Params -> list Traj * Z.

Local Abbreviation Redis := (@Redis Params Traj).
Local Abbreviation World := (@World Params Traj).
Local Abbreviation Worker := (@Worker Params).

(** *** Waiting for the model *)

Lemma run_iteration_waits (self : Worker) (w : World) :
  model_latest (redis w) = None ->
  run_iteration log10 expq shuffle generate_episode self w
  = Ok (self, Waited) (mkWorld (redis w) (rng w) (rng_pos w) (slept w + 1)).
Proof.
  intros H. unfold run_iteration, bind at 1, get_redis. rewrite H.
  reflexivity.
Qed.

(** As long as nobody publishes a model, the loop of [run] only sleeps:
    [fuel] passes are [fuel] seconds of sleep and no exception. *)
Lemma run_waits (fuel : nat) : forall (self : Worker) (w : World),
  model_latest (redis w) = None ->
  run log10 expq shuffle generate_episode fuel self w
  = Ok (self, O)
       (mkWorld (redis w) (rng w) (rng_pos w) (slept w + Z.of_nat fuel)).
Proof.
  induction fuel as [|fuel IH]; intros self w H.
  - simpl. unfold ret. destruct w; simpl. now rewrite Z.add_0_r.
  - cbn [run]. unfold bind at 1. rewrite (run_iteration_waits self w H).
    unfold bind at 1. rewrite IH by exact H. unfold ret. simpl.
    do 2 f_equal. lia.
Qed.

(** C10. Whatever else the store holds, without a model blob a pass of the
    loop of [run] sleeps one second and goes back to the top with nothing
    else changed, but the constructor, which reads the blob before the
    loop is entered, raises [TypeError]. *)
Theorem worker_waits_only_inside_run
    (q : list Rating) (ro : list (@MatchSubmission Traj)) (v : option Z)
    (o : list Params) (ids : list string) (tape : nat -> Q) (pos : nat)
    (secs : Z) (self : Worker) (name uuid : string) (agents : Z) (p : Q) :
  let st : Redis := mkRedis q None ro v o ids in
  run_iteration log10 expq shuffle generate_episode self
                (mkWorld st tape pos secs)
  = Ok (self, Waited) (mkWorld st tape pos (secs + 1))
  /\ RedisRolloutWorker_init name agents p uuid (mkWorld st tape pos secs)
     = Raise TypeError (mkWorld st tape pos secs).
Proof. split; reflexivity. Qed.

(** *** Rational sums *)

Lemma Qltb_lt (x y : Q) : Qltb x y = true <-> (x < y)%Q.
Proof.
  unfold Qltb. rewrite negb_true_iff. split.
  - intros H. apply Qnot_le_lt. intros L.
    apply Qle_bool_iff in L. congruence.
  - intros H. destruct (Qle_bool y x) eqn:L; [|reflexivity].
    apply Qle_bool_iff in L. apply Qlt_not_le in H. contradiction.
Qed.

Lemma Qsum_pos (l : list Q) :
  l <> [] -> Forall (fun x => 0 < x)%Q l -> (0 < Qsum l)%Q.
Proof.
  induction l as [|x l IH]; intros N F; [congruence|].
  inversion F as [|? ? Hx Fl]; subst. simpl.
  destruct l as [|y l].
  - simpl. lra.
  - assert (0 < Qsum (y :: l))%Q by (apply IH; [discriminate|assumption]).
    lra.
Qed.

Lemma Qsum_map_div (l : list Q) (s : Q) :
  (Qsum (map (fun v => v / s) l) == Qsum l / s)%Q.
Proof.
  induction l as [|x l IH]; simpl.
  - unfold Qdiv. ring.
  - rewrite IH. unfold Qdiv. ring.
Qed.

Lemma softmax_length (x : list Q) : length (softmax expq x) = length x.
Proof. unfold softmax. now rewrite !length_map. Qed.

(** *** Inverting the cumulative sums *)

Lemma cumsum_from_length (p : list Q) : forall acc,
  length (cumsum_from acc p) = length p.
Proof. induction p as [|x p IH]; intros acc; simpl; auto. Qed.

Lemma cumsum_from_last (p : list Q) : forall acc d,
  p <> [] -> (last (cumsum_from acc p) d == acc + Qsum p)%Q.
Proof.
  induction p as [|x p IH]; intros acc d N; [congruence|].
  destruct p as [|y p].
  - simpl. ring.
  - change (last (cumsum_from acc (x :: y :: p)) d)
      with (last (cumsum_from (acc + x) (y :: p)) d).
    rewrite IH by discriminate. simpl. ring.
Qed.

Lemma last_map_nonempty {A B} (f : A -> B) (l : list A) d d' :
  l <> [] -> last (map f l) d' = f (last l d).
Proof.
  induction l as [|a l IH]; intros N; [congruence|].
  destruct l as [|b l]; [reflexivity|].
  change (last (map f (b :: l)) d' = f (last (b :: l) d)).
  apply IH. discriminate.
Qed.

Lemma searchsorted_right_bound (cdf : list Q) (u d : Q) :
  cdf <> [] -> Qltb u (last cdf d) = true ->
  (searchsorted_right cdf u < length cdf)%nat.
Proof.
  induction cdf as [|c cdf IH]; intros N H; [congruence|].
  simpl. destruct (Qltb u c) eqn:C; [lia|].
  destruct cdf as [|c' cdf].
  - simpl in H. congruence.
  - apply -> Nat.succ_lt_mono. apply IH; [discriminate|exact H].
Qed.

Lemma existsb_none {A} (f : A -> bool) (l : list A) :
  Forall (fun x => f x = false) l -> existsb f l = false.
Proof.
  induction 1 as [|x l Hx _ IH]; simpl; [reflexivity|].
  now rewrite Hx, IH.
Qed.

(** [choice] on probabilities that numpy accepts draws once and answers
    with a position of [p]. *)
Lemma choice_in_range (p : list Q) (w : World) :
  p <> [] ->
  Forall (fun v => 0 <= v)%Q p ->
  (Qsum p == 1)%Q ->
  (0 <= rng w (rng_pos w) < 1)%Q ->
  exists index,
    choice (length p) p w
    = Ok index (mkWorld (redis w) (rng w) (S (rng_pos w)) (slept w))
    /\ (index < length p)%nat.
Proof.
  intros N F S U. unfold choice.
  destruct (Nat.eqb_spec (length p) 0) as [E|_].
  { destruct p; [congruence|discriminate]. }
  rewrite Nat.eqb_refl. cbn [negb].
  rewrite existsb_none.
  2:{ revert F. apply Forall_impl. intros v Hv.
      destruct (Qltb v 0) eqn:L; [|reflexivity].
      apply Qltb_lt in L. lra. }
  apply Qeq_bool_iff in S. rewrite S. cbn [negb].
  unfold bind, random, ret.
  eexists. split; [reflexivity|].
  replace (length p)
    with (length (map (fun c => (c / last (cumsum p) 1)%Q) (cumsum p)))
    by (rewrite length_map; apply cumsum_from_length).
  assert (Nc : cumsum p <> []).
  { unfold cumsum. destruct p; [congruence|discriminate]. }
  apply searchsorted_right_bound with (d := (1 / last (cumsum p) 1)%Q).
  - destruct (cumsum p); [congruence|discriminate].
  - rewrite (last_map_nonempty _ _ 1%Q) by exact Nc.
    apply Qltb_lt. apply Qeq_bool_iff in S.
    assert (L : (last (cumsum p) 1 == 1)%Q).
    { unfold cumsum. rewrite cumsum_from_last by exact N. rewrite S. ring. }
    rewrite L. setoid_replace (1 / 1)%Q with 1%Q by field. lra.
Qed.

Section PositiveExp.

Hypothesis expq_pos : forall x, (0 < expq x)%Q.

Lemma exp_sum_pos (x : list Q) : x <> [] -> (0 < Qsum (map expq x))%Q.
Proof.
  intros N. apply Qsum_pos.
  - destruct x; [congruence|discriminate].
  - apply Forall_forall. intros v I. apply in_map_iff in I.
    destruct I as [y [<- _]]. apply expq_pos.
Qed.

Lemma softmax_sum (x : list Q) : x <> [] -> (Qsum (softmax expq x) == 1)%Q.
Proof.
  intros N. unfold softmax. rewrite Qsum_map_div.
  pose proof (exp_sum_pos x N). field. lra.
Qed.

Lemma softmax_nonneg (x : list Q) :
  x <> [] -> Forall (fun v => 0 <= v)%Q (softmax expq x).
Proof.
  intros N. pose proof (exp_sum_pos x N) as S.
  apply Forall_forall. intros v I. unfold softmax in I.
  apply in_map_iff in I. destruct I as [e [<- I]].
  apply in_map_iff in I. destruct I as [y [<- _]].
  apply Qle_shift_div_l; [assumption|]. pose proof (expq_pos y). lra.
Qed.


(** *** Selecting an opponent *)

Lemma get_opponent_index_empty (w : World) :
  qualities (redis w) = [] ->
  _get_opponent_index log10 expq w = Raise ValueError w.
Proof.
  intros E. unfold _get_opponent_index, bind at 1, get_redis.
  rewrite E. reflexivity.
Qed.

Lemma get_opponent_index_in_range (w : World) :
  qualities (redis w) <> [] ->
  (0 <= rng w (rng_pos w) < 1)%Q ->
  exists index prob,
    _get_opponent_index log10 expq w
    = Ok (index, prob) (mkWorld (redis w) (rng w) (S (rng_pos w)) (slept w))
    /\ (index < length (qualities (redis w)))%nat.
Proof.
  intros N U. unfold _get_opponent_index, bind at 1, get_redis.
  set (x := map (fun q => (q / log10)%Q) (map mu (qualities (redis w)))).
  assert (Nx : x <> []).
  { unfold x. destruct (qualities (redis w)); [congruence|discriminate]. }
  assert (Np : softmax expq x <> []).
  { intros E. apply (f_equal (@length Q)) in E.
    rewrite softmax_length in E. destruct x; [congruence|discriminate]. }
  destruct (choice_in_range (softmax expq x) w Np (softmax_nonneg x Nx)
                            (softmax_sum x Nx) U) as (index & C & L).
  exists index, (nth index (softmax expq x) 0%Q).
  unfold bind. rewrite C. split; [reflexivity|].
  rewrite softmax_length in L. unfold x in L.
  now rewrite !length_map in L.
Qed.

End PositiveExp.

(** A seat whose draw is below the adjusted probability is the current
    agent at the latest version; the pass takes one sample for it. *)
Lemma extra_seats_current (self : Worker) (latest_version : Z)
    (adjusted : Q) (k : nat) (w : World) :
  Qltb (rng w (rng_pos w)) adjusted = true ->
  extra_seats log10 expq self latest_version adjusted (S k) w
  = bind (extra_seats log10 expq self latest_version adjusted k)
         (fun rest =>
            ret ((current_agent self, latest_version,
                  current_version_prob self) :: rest))
         (mkWorld (redis w) (rng w) (S (rng_pos w)) (slept w)).
Proof.
  intros D. cbn [extra_seats]. unfold bind at 1. unfold random at 1.
  cbn [rng rng_pos]. rewrite D. reflexivity.
Qed.

(** A seat that is not drawn as current cannot be filled while QUALITIES is
    empty: the pass raises. *)
Lemma extra_seats_empty_pool (self : Worker) (latest_version : Z)
    (adjusted : Q) (k : nat) (w : World) :
  qualities (redis w) = [] ->
  Qltb (rng w (rng_pos w)) adjusted = false ->
  raised (extra_seats log10 expq self latest_version adjusted (S k) w)
  = Some ValueError.
Proof.
  intros E D. cbn [extra_seats]. unfold bind at 1. unfold random at 1.
  cbn [rng rng_pos]. rewrite D. cbn [negb].
  unfold bind at 1. unfold bind at 1. unfold bind at 1.
  rewrite get_opponent_index_empty by exact E. reflexivity.
Qed.

(** C9, as the code has it. With an empty rating list
    [_get_opponent_index] raises [ValueError] (numpy refuses to choose from
    nothing), and so does the pass of the worker that calls it for a seat
    not drawn as current: nothing in [run] catches it. With a rating list
    that is not empty it draws one sample and answers with a position of
    that list. *)
Theorem opponent_index_in_range (w : World) :
  (qualities (redis w) = [] ->
   _get_opponent_index log10 expq w = Raise ValueError w
   /\ forall self latest_version adjusted k,
        Qltb (rng w (rng_pos w)) adjusted = false ->
        raised (extra_seats log10 expq self latest_version adjusted (S k) w)
        = Some ValueError)
  /\ ((forall x, 0 < expq x)%Q ->
      qualities (redis w) <> [] ->
      (0 <= rng w (rng_pos w) < 1)%Q ->
      exists index prob w',
        _get_opponent_index log10 expq w = Ok (index, prob) w'
        /\ redis w' = redis w
        /\ (index < length (qualities (redis w)))%nat).
Proof.
  split.
  - intros E. split; [now apply get_opponent_index_empty|].
    intros self latest_version adjusted k D.
    now apply extra_seats_empty_pool.
  - intros P N U.
    destruct (get_opponent_index_in_range P w N U) as (index & prob & G & L).
    exists index, prob. eexists.
    split; [exact G|]. split; [reflexivity|exact L].
Qed.

End WorkerFacts.

(** * Facts about the seat draw *)

(** *** Sums over the tapes *)

Lemma Zsum_app (l1 l2 : list Z) : Zsum (l1 ++ l2) = Zsum l1 + Zsum l2.
Proof. induction l1 as [|x l1 IH]; simpl; lia. Qed.

Lemma Zsum_flat_map {A} (h : A -> list Z) (l : list A) :
  Zsum (flat_map h l) = Zsum (map (fun x => Zsum (h x)) l).
Proof.
  induction l as [|x l IH]; [reflexivity|].
  simpl. now rewrite Zsum_app, IH.
Qed.

Lemma Zsum_map_const {A} (c : Z) (l : list A) :
  Zsum (map (fun _ => c) l) = c * Z.of_nat (length l).
Proof. induction l as [|x l IH]; simpl length; simpl Zsum; lia. Qed.

Lemma Zsum_map_plus {A} (f g : A -> Z) (l : list A) :
  Zsum (map (fun x => f x + g x) l) = Zsum (map f l) + Zsum (map g l).
Proof. induction l as [|x l IH]; simpl; lia. Qed.

Lemma Zsum_map_if {A} (b : A -> bool) (x y : Z) (l : list A) :
  Zsum (map (fun a => if b a then x else y) l)
  = Z.of_nat (length (filter b l)) * x
    + (Z.of_nat (length l) - Z.of_nat (length (filter b l))) * y.
Proof.
  induction l as [|a l IH]; [reflexivity|].
  cbn [map Zsum fold_right filter length]. fold (Zsum (map (fun a => if b a then x else y) l)).
  rewrite IH. destruct (b a); cbn [length]; lia.
Qed.

Lemma length_samples (n : nat) : length (samples n) = n.
Proof. unfold samples. now rewrite length_map, length_seq. Qed.

Lemma tapes_sum_S (n k : nat) (f : list Q -> Z) :
  Zsum (map f (tapes n (S k)))
  = Zsum (map (fun u => Zsum (map (fun us => f (u :: us)) (tapes n k)))
              (samples n)).
Proof.
  cbn [tapes]. induction (samples n) as [|u l IH]; [reflexivity|].
  cbn [flat_map map Zsum fold_right]. rewrite map_app, Zsum_app, map_map.
  fold (Zsum (map (fun u => Zsum (map (fun us => f (u :: us)) (tapes n k))) l)).
  now rewrite IH.
Qed.

Lemma length_tapes (n k : nat) :
  Z.of_nat (length (tapes n k)) = Z.of_nat n ^ Z.of_nat k.
Proof.
  induction k as [|k IH]; [reflexivity|].
  rewrite Nat2Z.inj_succ, Z.pow_succ_r by lia. rewrite <- IH.
  cbn [tapes]. rewrite flat_map_concat_map.
  assert (E : forall (l : list Q) (T : list (list Q)),
             Z.of_nat (length (concat (map (fun u => map (cons u) T) l)))
             = Z.of_nat (length l) * Z.of_nat (length T)).
  { intros l T. induction l as [|u l IHl]; [reflexivity|].
    cbn [map concat]. rewrite length_app, length_map. cbn [length]. lia. }
  rewrite E, length_samples. reflexivity.
Qed.

Lemma samples_unit (n : nat) (u : Q) : In u (samples n) -> (0 <= u < 1)%Q.
Proof.
  unfold samples. intros I. apply in_map_iff in I.
  destruct I as [i [<- I]]. apply in_seq in I.
  assert (Hn : (0 < inject_Z (Z.of_nat n))%Q).
  { change 0%Q with (inject_Z 0). rewrite <- Zlt_Qlt. lia. }
  split.
  - apply Qle_shift_div_l; [exact Hn|]. rewrite Qmult_0_l.
    change 0%Q with (inject_Z 0). rewrite <- Zle_Qle. lia.
  - apply Qlt_shift_div_r; [exact Hn|]. rewrite Qmult_1_l.
    rewrite <- Zlt_Qlt. lia.
Qed.

Lemma tapes_unit (n k : nat) : forall us,
  In us (tapes n k) -> Forall (fun u => 0 <= u < 1)%Q us.
Proof.
  induction k as [|k IH]; intros us I.
  - destruct I as [<-|[]]. constructor.
  - cbn [tapes] in I. apply in_flat_map in I. destruct I as [u [Iu I]].
    apply in_map_iff in I. destruct I as [us' [<- I]].
    constructor; [now apply (samples_unit n)|now apply IH].
Qed.

Lemma tape_of_unit (us : list Q) :
  Forall (fun u => 0 <= u < 1)%Q us -> forall i, (0 <= tape_of us i < 1)%Q.
Proof.
  intros F i. unfold tape_of. destruct (nth_in_or_default i us 0%Q) as [I | ->].
  - rewrite Forall_forall in F. now apply F.
  - lra.
Qed.

(** *** The draws, tape by tape *)

Lemma draws_below_shift (adjusted : Q) (m : nat) (u : Q) (us : list Q) :
  forall p,
  draws_below adjusted m (tape_of (u :: us)) (S p)
  = draws_below adjusted m (tape_of us) p.
Proof.
  induction m as [|m IH]; intros p; [reflexivity|].
  cbn [draws_below]. rewrite !IH. reflexivity.
Qed.

(** Over all the tapes, [m] seats in a row are drawn as current
    [m * samples_below / n] times on average. *)
Lemma tapes_sum_draws (n : nat) (adjusted : Q) (m : nat) :
  forall k, (2 * m <= k)%nat ->
  Z.of_nat n
  * Zsum (map (fun us => Z.of_nat (draws_below adjusted m (tape_of us) 0))
              (tapes n k))
  = Z.of_nat m * samples_below n adjusted * Z.of_nat n ^ Z.of_nat k.
Proof.
  induction m as [|m IH]; intros k Hk.
  - cbn [draws_below]. rewrite Zsum_map_const. lia.
  - destruct k as [|[|k]]; [lia|lia|].
    pose proof (IH (S k) ltac:(lia)) as IH1.
    pose proof (IH k ltac:(lia)) as IH0.
    set (T1 := Zsum (map (fun us => Z.of_nat (draws_below adjusted m (tape_of us) 0))
                         (tapes n (S k)))) in *.
    set (T0 := Zsum (map (fun us => Z.of_nat (draws_below adjusted m (tape_of us) 0))
                         (tapes n k))) in *.
    rewrite tapes_sum_S.
    rewrite (map_ext _ (fun u => if Qltb u adjusted
                                 then Z.of_nat n ^ Z.of_nat (S k) + T1
                                 else Z.of_nat n * T0)).
    2:{ intros u. destruct (Qltb u adjusted) eqn:D.
        - rewrite (map_ext _ (fun us =>
                     1 + Z.of_nat (draws_below adjusted m (tape_of us) 0))).
          2:{ intros us. cbn [draws_below]. change (tape_of (u :: us) 0%nat) with u.
              rewrite D, draws_below_shift. lia. }
          rewrite Zsum_map_plus, Zsum_map_const, length_tapes. fold T1. lia.
        - rewrite tapes_sum_S.
          rewrite (map_ext _ (fun _ => T0)).
          2:{ intros u2. unfold T0. f_equal. apply map_ext. intros us.
              cbn [draws_below]. change (tape_of (u :: u2 :: us) 0%nat) with u.
              rewrite D, !draws_below_shift. reflexivity. }
          rewrite Zsum_map_const, length_samples. lia. }
    rewrite Zsum_map_if, length_samples. fold (samples_below n adjusted).
    set (c := samples_below n adjusted) in *.
    rewrite !Nat2Z.inj_succ, !Z.pow_succ_r in * by lia.
    set (P := Z.of_nat n ^ Z.of_nat k) in *.
    transitivity (c * (Z.of_nat n * (Z.of_nat n * P)) + c * (Z.of_nat n * T1)
                  + (Z.of_nat n - c) * Z.of_nat n * (Z.of_nat n * T0)); [ring|].
    rewrite IH1, IH0. ring.
Qed.

(** *** The samples below a probability *)

Lemma filter_none {A} (f : A -> bool) (l : list A) :
  (forall x, In x l -> f x = false) -> filter f l = [].
Proof.
  induction l as [|x l IH]; intros H; [reflexivity|].
  simpl. rewrite (H x) by now left. apply IH. intros y I. apply H. now right.
Qed.

Lemma filter_all {A} (f : A -> bool) (l : list A) :
  (forall x, In x l -> f x = true) -> filter f l = l.
Proof.
  induction l as [|x l IH]; intros H; [reflexivity|].
  simpl. rewrite (H x) by now left. f_equal. apply IH. intros y I.
  apply H. now right.
Qed.

Lemma samples_below_none (n : nat) (p : Q) :
  (p <= 0)%Q -> samples_below n p = 0.
Proof.
  intros H. unfold samples_below. rewrite filter_none; [reflexivity|].
  intros u I. apply samples_unit in I.
  destruct (Qltb u p) eqn:L; [|reflexivity]. apply Qltb_lt in L. lra.
Qed.

Lemma samples_below_all (n : nat) (p : Q) :
  (1 <= p)%Q -> samples_below n p = Z.of_nat n.
Proof.
  intros H. unfold samples_below. rewrite filter_all.
  - now rewrite length_samples.
  - intros u I. apply samples_unit in I. apply Qltb_lt. lra.
Qed.




(** *** The selection, tape by tape *)

Section SeatFacts.

Context {Params Traj : Type}.
Variable log10 : Q.
Variable expq : Q -> Q.
Variable shuffle : list (@Seat Params) -> list (@Seat Params).

Local Abbreviation Redis := (@Redis Params Traj).
Local Abbreviation World := (@World Params Traj).
Local Abbreviation Worker := (@Worker Params).

Hypothesis shuffle_perm : forall l, Permutation (shuffle l) l.
Hypothesis expq_pos : forall x, (0 < expq x)%Q.

Lemma current_seats_perm (lv : Z) (l l' : list (@Seat Params)) :
  Permutation l l' -> current_seats lv l = current_seats lv l'.
Proof.
  unfold current_seats. induction 1 as [|x l l' _ IH|x y l|l l' l'' _ IH1 _ IH2].
  - reflexivity.
  - simpl. destruct (snd (fst x) =? lv); simpl; now rewrite IH.
  - simpl. destruct (snd (fst x) =? lv), (snd (fst y) =? lv); reflexivity.
  - congruence.
Qed.

Variable self : Worker.
Variable lv : Z.
Variable st : Redis.

Let adjusted : Q :=
  adjusted_prob (current_version_prob self) (n_agents self).
Let further : nat := Z.to_nat (n_agents self - 1).

(** There are ratings to choose from, a snapshot for every rating, and the
    latest version is not the index of one of them. *)
Hypothesis rated : qualities st <> [].
Hypothesis pooled :
  (length (qualities st) <= length (opponent_models st))%nat.
Hypothesis fresh : ~ (0 <= lv < Z.of_nat (length (qualities st))).

(** Each of [m] further seats is filled, and those at the latest version
    are the ones drawn as current. *)
Lemma extra_seats_draws (m : nat) : forall w : World,
  redis w = st ->
  (forall i, 0 <= rng w i < 1)%Q ->
  exists seats w',
    extra_seats log10 expq self lv adjusted m w = Ok seats w'
    /\ length seats = m
    /\ current_seats lv seats = draws_below adjusted m (rng w) (rng_pos w).
Proof.
  induction m as [|m IH]; intros w R U.
  - exists [], w. repeat split.
  - cbn [extra_seats draws_below]. unfold bind at 1. unfold random at 1.
    set (w1 := mkWorld (redis w) (rng w) (S (rng_pos w)) (slept w)).
    destruct (Qltb (rng w (rng_pos w)) adjusted) eqn:D; cbn [negb].
    + unfold bind at 1. unfold ret at 1. unfold bind.
      destruct (IH w1 R U) as (seats & w' & E & L & C).
      rewrite E. unfold ret. do 2 eexists. split; [reflexivity|].
      split; [simpl; now rewrite L|].
      unfold current_seats in *. cbn [filter fst snd]. rewrite Z.eqb_refl.
      cbn [length]. now rewrite C.
    + destruct (get_opponent_index_in_range log10 expq expq_pos w1)
        as (index & prob & G & Li).
      { cbn [w1 redis]. now rewrite R. }
      { apply U. }
      cbn [w1 redis rng rng_pos slept] in G, Li. rewrite R in Li.
      set (w2 := mkWorld (redis w) (rng w) (S (S (rng_pos w))) (slept w)) in *.
      unfold bind at 1. unfold bind at 1. rewrite G.
      unfold bind at 1. unfold get_redis at 1. cbn [w2 redis]. rewrite R.
      assert (Lo : exists a, lindex (opponent_models st) (Z.of_nat index)
                             = Some a).
      { rewrite lindex_nonneg by lia. rewrite Nat2Z.id.
        destruct (nth_error (opponent_models st) index) as [a|] eqn:E;
          [eauto|]. apply nth_error_None in E. lia. }
      destruct Lo as [a Lo]. rewrite Lo. unfold bind at 1.
      cbn [unserialize_w]. unfold ret at 1. unfold ret at 1. unfold bind.
      fold w2.
      destruct (IH w2 R U) as (seats & w' & E & L & C).
      rewrite E.
      unfold ret. do 2 eexists. split; [reflexivity|].
      split; [simpl; now rewrite L|].
      unfold current_seats in *. cbn [filter fst snd].
      destruct (Z.eqb_spec (Z.of_nat index) lv) as [Ev|_]; [lia|].
      exact C.
Qed.

(** On a tape of samples of [0, 1) the selection fields [n_agents] seats,
    and those at the latest version are the first entry of [agents] and the
    seats drawn as current. *)
Lemma select_agents_draws (us : list Q) :
  2 <= n_agents self ->
  Forall (fun u => 0 <= u < 1)%Q us ->
  exists agents w',
    select_agents log10 expq shuffle self lv (mkWorld st (tape_of us) 0 0)
    = Ok agents w'
    /\ length agents = Z.to_nat (n_agents self)
    /\ current_seats lv agents
       = S (draws_below adjusted further (tape_of us) 0).
Proof.
  intros N F. unfold select_agents, bind.
  destruct (Z.ltb_spec 1 (n_agents self)); [|lia].
  destruct (extra_seats_draws further (mkWorld st (tape_of us) 0 0) eq_refl
              (tape_of_unit us F)) as (more & w' & E & L & C).
  fold adjusted. fold further. rewrite E. unfold ret.
  do 2 eexists. split; [reflexivity|].
  split.
  - rewrite (Permutation_length (shuffle_perm _)). simpl. rewrite L.
    unfold further. lia.
  - rewrite (current_seats_perm lv _ _ (shuffle_perm _)).
    unfold current_seats in *. cbn [app filter fst snd].
    rewrite Z.eqb_refl. cbn [length]. now rewrite C.
Qed.

Lemma current_seats_on_draws (us : list Q) :
  2 <= n_agents self ->
  Forall (fun u => 0 <= u < 1)%Q us ->
  current_seats_on log10 expq shuffle self lv st us
  = 1 + Z.of_nat (draws_below adjusted further (tape_of us) 0).
Proof.
  intros N F. unfold current_seats_on.
  destruct (select_agents_draws us N F) as (agents & w' & -> & _ & ->). lia.
Qed.

(** The mean number of seats at the latest version is one more than the
    number of further seats times the probability of a sample below the
    adjusted probability. *)
Lemma mean_current_seats (n k : nat) :
  2 <= n_agents self -> (0 < n)%nat -> (2 * further <= k)%nat ->
  (mean_over n k (current_seats_on log10 expq shuffle self lv st)
   == 1 + (inject_Z (n_agents self) - 1)
          * (inject_Z (samples_below n adjusted) / inject_Z (Z.of_nat n)))%Q.
Proof.
  intros N Hn Hk. unfold mean_over.
  rewrite (map_ext_in _ (fun us =>
             1 + Z.of_nat (draws_below adjusted further (tape_of us) 0))).
  2:{ intros us I. apply current_seats_on_draws; [exact N|].
      now apply (tapes_unit n k). }
  rewrite Zsum_map_plus, Zsum_map_const.
  pose proof (tapes_sum_draws n adjusted further k Hk) as S.
  rewrite <- length_tapes in S.
  set (T := Zsum (map (fun us => Z.of_nat (draws_below adjusted further
                                             (tape_of us) 0)) (tapes n k)))
    in *.
  assert (Lp : 0 < Z.of_nat (length (tapes n k))).
  { rewrite length_tapes. apply Z.pow_pos_nonneg; lia. }
  set (L := Z.of_nat (length (tapes n k))) in *.
  assert (Hm : Z.of_nat further = n_agents self - 1) by (unfold further; lia).
  rewrite Hm in S.
  apply (f_equal inject_Z) in S. rewrite !inject_Z_mult in S.
  assert (LQ : (0 < inject_Z L)%Q).
  { change 0%Q with (inject_Z 0). now rewrite <- Zlt_Qlt. }
  assert (nQ : (0 < inject_Z (Z.of_nat n))%Q).
  { change 0%Q with (inject_Z 0). rewrite <- Zlt_Qlt. lia. }
  assert (HT : (inject_Z T
                == inject_Z (n_agents self - 1)
                   * inject_Z (samples_below n adjusted) * inject_Z L
                   / inject_Z (Z.of_nat n))%Q).
  { rewrite <- S. field. lra. }
  rewrite inject_Z_plus, inject_Z_mult, HT.
  unfold Z.sub. rewrite inject_Z_plus, inject_Z_opp.
  change (inject_Z 1) with 1%Q. field. split; lra.
Qed.


(** X19. The mean number of seats at the latest version is one more than
    [n_agents - 1] times the probability of a sample below the adjusted
    probability. It is [n_agents * current_version_prob] only while the
    adjusted probability is a probability: when it is negative
    ([current_version_prob < 1 / n_agents]) no further seat is drawn as
    current and the mean is 1, and when it is 1 or more every seat is and
    the mean is [n_agents]. *)
Theorem clamped_expectation_of_seats (n k : nat) :
  2 <= n_agents self ->
  (0 < n)%nat ->
  (2 * Z.to_nat (n_agents self - 1) <= k)%nat ->
  let mean := mean_over n k (current_seats_on log10 expq shuffle self lv st) in
  let adjusted := adjusted_prob (current_version_prob self) (n_agents self) in
  (mean == 1 + (inject_Z (n_agents self) - 1)
               * (inject_Z (samples_below n adjusted)
                  / inject_Z (Z.of_nat n)))%Q
  /\ ((adjusted <= 0)%Q -> (mean == 1)%Q)
  /\ ((1 <= adjusted)%Q -> (mean == inject_Z (n_agents self))%Q).
Proof.
  intros N Hn Hk. cbv zeta.
  pose proof (mean_current_seats n k N Hn Hk) as E. fold adjusted.
  assert (nQ : (0 < inject_Z (Z.of_nat n))%Q).
  { change 0%Q with (inject_Z 0). rewrite <- Zlt_Qlt. lia. }
  split; [exact E|]. split; intros H; rewrite E.
  - rewrite samples_below_none by exact H. field. lra.
  - rewrite samples_below_all by exact H. field. lra.
Qed.

End SeatFacts.

(** * The protocol on the sample stores *)

Lemma sample_rate_keeps_sizes : rate_keeps_sizes sample_rate.
Proof.
  intros a b [ra rb] a' b'. unfold sample_rate.
  destruct a as [|x a]; [discriminate|]. destruct b as [|y b]; [discriminate|].
  intros H. inversion H; subst. simpl. rewrite !length_map. auto.
Qed.

Lemma sample_rate_by_order : rate_by_order sample_rate.
Proof.
  intros [a b] k Hk. unfold sample_rate.
  destruct a as [|x a]; [reflexivity|]. destruct b as [|y b]; [reflexivity|].
  destruct (Z.ltb_spec 0 k); [|lia]. destruct (Z.ltb_spec k 0); [lia|].
  reflexivity.
Qed.

Lemma sample_exp_pos (x : Q) : (0 < sample_exp x)%Q.
Proof.
  unfold sample_exp. destruct (Qltb x 0) eqn:L.
  - apply Qltb_lt in L. apply Qlt_shift_div_l; lra.
  - assert (~ (x < 0)%Q) by (intros H; apply Qltb_lt in H; congruence).
    lra.
Qed.

(** With a snapshot at every update the second update raises while it
    logs the ratings, and the session does not get to the worker. *)
Lemma sample_session_1_stops : sample_session 1 = None.
Proof. reflexivity. Qed.

(** With a snapshot every ten updates the match is played by version 1,
    which has no rating yet, and the pull ends in the [TypeError] of
    line 79. *)
Lemma sample_session_10_crashes :
  exists st,
    sample_session 10 = Some ([], Crashed TypeError, st)
    /\ version_latest st = Some 1
    /\ length (qualities st) = 1%nat.
Proof. eexists. split; [vm_compute; reflexivity|]. split; reflexivity. Qed.

(** C1: a submission with an unrated version in front of a good one. The
    specification has the generator drop the first and go on to the second,
    whose two rollouts it would yield; the code stops at the first and the
    second is never pulled. *)
Lemma generator_continues_counterexample :
  Exists (unresolved (qualities store_v0)) (rollout_data sub_70)
  /\ generate_rollouts_from sample_rate [sub_70; sub_00] store_v0
     = ([], Crashed TypeError, set_rollouts store_v0 [sub_00])
  /\ fst (generate_rollouts_from sample_rate [sub_00] store_v0)
     = ([20%nat; 21%nat], Blocked).
Proof.
  split; [|split].
  - apply Exists_cons_hd. reflexivity.
  - reflexivity.
  - vm_compute. reflexivity.
Qed.

Lemma missing_rating_ends_generator_witness :
  Forall (fun r => lindex (qualities store_v0) (snd r) <> None)
         (rollout_data sub_00)
  /\ generate_rollouts_from sample_rate [sub_70; sub_00] store_v0
     = ([], Crashed TypeError, set_rollouts store_v0 [sub_00]).
Proof.
  split.
  - destruct (process_submission sample_rate sub_00 store_v0)
      as [ts st'|e st'] eqn:P.
    + exact (proj1 (missing_rating_ends_generator sample_rate store_v0 sub_00)
                   ts st' P).
    + vm_compute in P. discriminate P.
  - apply (proj2 (missing_rating_ends_generator sample_rate store_v0 sub_70)).
    apply Exists_cons_hd. reflexivity.
Defined.

(** C2: the failing input. Both seats of the match were played by the
    latest version, 1, and both versions have a rating, yet the pass raises
    (for any [rate]) and yields neither rollout; with the sample [rate] the
    exception is the [KeyError] of line 96, and it ends the generator. *)
Theorem current_version_match_is_lost :
  map fst (filter (fun r => snd r =? 1) (rollout_data sub_11))
  = [10%nat; 11%nat]
  /\ (forall rate, exists e,
        process_submission rate sub_11 store_v1 = Raise e store_v1)
  /\ process_submission sample_rate sub_11 store_v1 = Raise KeyError store_v1
  /\ generate_rollouts sample_rate (set_rollouts store_v1 [sub_11])
     = ([], Crashed KeyError, store_v1).
Proof.
  split; [reflexivity|]. split; [|split].
  - intros rate. apply no_version0_raises. reflexivity.
  - reflexivity.
  - reflexivity.
Qed.

Lemma rate_teams_sign_symmetric_witness :
  rate_teams sample_rate [r0] [r0; r0] (-3)
  = swap_teams (rate_teams sample_rate [r0; r0] [r0] (- -3)).
Proof.
  apply (proj2 (rate_teams_sign_symmetric sample_rate [r0] [r0; r0] (-3)
                  sample_rate_by_order)).
  lia.
Defined.




(** C5: the first call pushes a snapshot although it is not a tenth
    call, the calls up to the tenth push nothing more, so the tenth does
    not push, and the eleventh does. After one call, and after eleven, the
    pool does not hold one snapshot for each call whose number, counted
    from 1, is a multiple of 10. *)
Lemma tenth_call_appends_counterexample :
  let pool k :=
    length (opponent_models
              (final_state
                 (update_many (fun n => n) 0 k (mkGenerator 0 10 (Some []))
                              (@empty_redis nat nat)))) in
  let tenth_calls k :=
    length (filter (fun j => (j mod 10 =? 0)%nat) (seq 1 k)) in
  pool 1%nat = 1%nat /\ pool 9%nat = 1%nat /\ pool 10%nat = 1%nat
  /\ pool 11%nat = 2%nat
  /\ pool 1%nat <> tenth_calls 1%nat
  /\ pool 11%nat <> tenth_calls 11%nat.
Proof. vm_compute. repeat split; discriminate. Qed.

Lemma snapshot_cadence_witness :
  let st := final_state
              (update_many (fun n => n) 0 10 (mkGenerator 0 10 (Some []))
                           (@empty_redis nat nat)) in
  opponent_models st = [0%nat] /\ length (qualities st) = 1%nat.
Proof.
  intros st.
  destruct (snapshot_cadence (fun n => n) (Some []) store_v1)
    as (self0 & I & _ & _ & _ & H & _).
  inversion I; subst self0.
  assert (U : update_many (fun n => n) 0 10 (mkGenerator 0 10 (Some []))
                          (@empty_redis nat nat)
              = Ok (mkGenerator 10 10 (Some [])) st)
    by (vm_compute; reflexivity).
  destruct (H 10%nat _ st U) as (_ & Ho & Hq & C).
  rewrite Ho, Hq, C. split; reflexivity.
Defined.

(** A generator built with the defaults has no logger. Its first ten
    updates go through; the eleventh pushes the second snapshot and raises
    on [self.logger.log] before the rating is pushed. *)
Lemma eleventh_update_without_logger_raises :
  (exists self st,
      update_many (fun n => n) 0 10 (mkGenerator 0 10 None)
                  (@empty_redis nat nat) = Ok self st
      /\ n_updates self = 10
      /\ length (opponent_models st) = 1%nat
      /\ length (qualities st) = 1%nat)
  /\ (exists st,
        update_many (fun n => n) 0 11 (mkGenerator 0 10 None)
                    (@empty_redis nat nat) = Raise AttributeError st
        /\ length (opponent_models st) = 2%nat
        /\ length (qualities st) = 1%nat).
Proof.
  split.
  - do 2 eexists. split; [vm_compute; reflexivity|]. repeat split.
  - eexists. split; [vm_compute; reflexivity|]. split; reflexivity.
Qed.

(** C6: the version -2 of the first seat is resolved from the tail of a
    list of two ratings, that is to the entry of version 0. The pass
    completes, 0 is not a key of the write-back map, and the entry of
    version 0 is overwritten. *)
Lemma version0_overwritten_counterexample :
  let st' := final_state (process_submission sample_rate sub_neg store_v1) in
  raised (process_submission sample_rate sub_neg store_v1) = None
  /\ (exists ro wb,
        aggregate sample_rate store_v1 sub_neg = inr (ro, wb)
        /\ map fst wb = [-2])
  /\ lindex (qualities store_v1) 0 = Some r0
  /\ lindex (qualities st') 0 = Some (mkRating (0 + 1) (SIGMA * (9 # 10)))
  /\ lindex (qualities st') 0 <> lindex (qualities store_v1) 0.
Proof.
  cbv zeta. split; [reflexivity|]. split; [do 2 eexists; split; reflexivity|].
  split; [reflexivity|]. split; [reflexivity|]. discriminate.
Qed.

Lemma version0_never_written_witness :
  lindex (qualities (final_state
                       (process_submission sample_rate sub_00 store_v0))) 0
  = lindex (qualities store_v0) 0.
Proof.
  apply (proj2 (version0_never_written sample_rate store_v0 sub_00)).
  repeat constructor; simpl; lia.
Defined.

(** C7: no seat of the submission has version 0, and the pass raises, but
    the exception is the [TypeError] of the lookup of line 79, not a
    [KeyError]: version 1 has no rating yet. *)
Lemma key_error_iff_no_version0_counterexample :
  has_version 0 sub_11 = false
  /\ raised (process_submission sample_rate sub_11 store_v1_unrated)
     = Some TypeError
  /\ raised (process_submission sample_rate sub_11 store_v1_unrated)
     <> Some KeyError.
Proof. repeat split. discriminate. Qed.

Lemma delete_version0_raises_witness :
  raised (process_submission sample_rate sub_11 store_v1) = Some KeyError.
Proof.
  apply (proj2 (proj2 (delete_version0_raises sample_rate store_v1 sub_11
                         sample_rate_keeps_sizes))).
  split; [reflexivity|]. do 2 eexists. vm_compute. reflexivity.
Defined.

(** C8: right after a construction with [clear], and again after the first
    update, the rating list is as long as the pool, not one longer. *)
Lemma ratings_one_more_than_pool_counterexample :
  (let st := final_state
               (RedisRolloutGenerator_init 10 None true store_v1) in
   length (qualities st) = 0%nat /\ length (opponent_models st) = 0%nat
   /\ length (qualities st) <> (1 + length (opponent_models st))%nat)
  /\ (let st := final_state
                  (update_parameters (mkGenerator 0 10 None) 0%nat
                                     (@empty_redis nat nat)) in
      length (qualities st) = 1%nat /\ length (opponent_models st) = 1%nat
      /\ length (qualities st) <> (1 + length (opponent_models st))%nat).
Proof. repeat split; simpl; lia. Qed.

Lemma ratings_parallel_to_pool_witness :
  let st' := final_state
               (update_parameters (mkGenerator 0 10 (Some [])) 0%nat
                                  (@empty_redis nat nat)) in
  length (qualities st') = 1%nat
  /\ length (qualities st') = length (opponent_models st').
Proof.
  intros st'. split; [reflexivity|].
  eapply (proj1 (proj2 (proj2 (@ratings_parallel_to_pool nat nat)))
                (mkGenerator 0 10 (Some [])) 0%nat empty_redis _ st').
  - reflexivity.
  - vm_compute. reflexivity.
Defined.

(** C9: a model is published and QUALITIES is empty. The specification
    has the selection fall back to the current model; the code raises
    [ValueError], in [_get_opponent_index] and so in the worker's pass. *)
Lemma empty_pool_selection_counterexample :
  let w := mkWorld store_no_opponent (constant_tape (99 # 100)) 0 0 in
  qualities (redis w) = []
  /\ raised (_get_opponent_index sample_log10 sample_exp w) = Some ValueError
  /\ raised (run_iteration sample_log10 sample_exp (fun l => l)
               sample_episode worker_2 w) = Some ValueError.
Proof. repeat split. Qed.

Lemma opponent_index_in_range_witness :
  let w := mkWorld store_v1 (constant_tape (99 # 100)) 0 0 in
  exists index prob w',
    _get_opponent_index sample_log10 sample_exp w = Ok (index, prob) w'
    /\ redis w' = redis w
    /\ (index < length (qualities (redis w)))%nat.
Proof.
  intros w.
  apply (proj2 (opponent_index_in_range sample_log10 sample_exp w)).
  - exact sample_exp_pos.
  - discriminate.
  - split; [intros H; vm_compute in H; discriminate H|reflexivity].
Defined.

(** * More about the generator *)

Section GeneratorMore.

Context {Params Traj : Type}.
Variable rate :
  list Rating * list Rating -> Z * Z -> option (list Rating * list Rating).

Local Abbreviation Redis := (@Redis Params Traj).
Local Abbreviation MatchSubmission := (@MatchSubmission Traj).
Local Abbreviation RolloutRecord := (@RolloutRecord Traj).

(** *** The split into teams *)

Lemma collect_seats_split qs lv bn (data : list RolloutRecord) :
  forall n ro bl og,
  collect_seats qs lv bn n data = inr (ro, bl, og) ->
  exists ratings,
    map (lindex qs) (map snd data) = map Some ratings
    /\ bl = firstn (bn - n) ratings
    /\ og = skipn (bn - n) ratings.
Proof.
  induction data as [|[rollout version] rest IH]; intros n ro bl og H;
    simpl in H.
  - inversion H. exists []. now rewrite firstn_nil, skipn_nil.
  - destruct (lindex qs version) as [rating|] eqn:L; [|discriminate].
    destruct (collect_seats qs lv bn (S n) rest) as [e'|[[ro' bl'] og']] eqn:C;
      [discriminate|].
    destruct (IH _ _ _ _ C) as (ratings & M & B & O).
    inversion H; subst. exists (rating :: ratings). simpl. rewrite L, M.
    split; [reflexivity|].
    destruct (Nat.ltb_spec n bn) as [Lt|Ge].
    + replace (bn - n)%nat with (S (bn - S n)) by lia. auto.
    + replace (bn - n)%nat with 0%nat by lia.
      replace (bn - S n)%nat with 0%nat by lia. auto.
Qed.

Lemma blue_players_half (data : list RolloutRecord) :
  blue_players data = ((length data + 1) / 2)%nat
  /\ (blue_players data + length data / 2 = length data)%nat.
Proof.
  unfold blue_players.
  pose proof (Nat.div_mod_eq (length data) 2) as D.
  pose proof (Nat.mod_upper_bound (length data) 2) as B.
  split; [|lia].
  destruct (Nat.eq_dec (length data mod 2) 0) as [E|E].
  - apply Nat.div_unique with (r := 1%nat); lia.
  - apply Nat.div_unique with (r := 0%nat); lia.
Qed.

(** X1. When every lookup of the first loop succeeds, blue is the ratings
    of the first [ceil(n / 2)] seats and orange the ratings of the other
    [floor(n / 2)], both in the order of the submission. *)
Theorem teams_split_by_position qs lv (data : list RolloutRecord) ro bl og :
  collect_seats qs lv (blue_players data) 0 data = inr (ro, bl, og) ->
  exists ratings,
    map (lindex qs) (map snd data) = map Some ratings
    /\ bl ++ og = ratings
    /\ bl = firstn ((length data + 1) / 2) ratings
    /\ length bl = ((length data + 1) / 2)%nat
    /\ length og = (length data / 2)%nat.
Proof.
  intros H. destruct (collect_seats_split _ _ _ _ _ _ _ _ H)
    as (ratings & M & B & O).
  rewrite Nat.sub_0_r in B, O.
  destruct (blue_players_half data) as [E S].
  assert (L : length ratings = length data).
  { apply (f_equal (@length _)) in M. now rewrite !length_map in M. }
  exists ratings. split; [exact M|]. subst bl og.
  split; [apply firstn_skipn|]. split; [now rewrite E|].
  rewrite length_firstn, length_skipn, L. lia.
Qed.

(** *** What a pass changes *)

Lemma process_submission_Ok_state (st st' : Redis) (sub : MatchSubmission)
    ts :
  process_submission rate sub st = Ok ts st' ->
  exists q, st' = set_qualities st q /\ length q = length (qualities st).
Proof.
  intros P. destruct (process_submission_Ok _ _ _ _ _ P) as (wb & A & _).
  destruct (process_submission_completes _ _ _ _ _ A) as (q & P' & L).
  exists q. split; [congruence|exact L].
Qed.

(** X2. A pass that completes changes no key but QUALITIES and keeps the
    length of QUALITIES; a pass that raises changes nothing at all. *)
Theorem pass_touches_only_qualities (st : Redis) (sub : MatchSubmission) :
  match process_submission rate sub st with
  | Ok ts st' =>
      exists q, st' = set_qualities st q /\ length q = length (qualities st)
  | Raise e st' => st' = st
  end.
Proof.
  destruct (process_submission rate sub st) as [ts st'|e st'] eqn:P.
  - exact (process_submission_Ok_state _ _ _ _ P).
  - now destruct (process_submission_Raise _ _ _ _ _ P).
Qed.

Lemma unresolved_raises (st : Redis) (sub : MatchSubmission) :
  Exists (unresolved (qualities st)) (rollout_data sub) ->
  process_submission rate sub st = Raise TypeError st.
Proof.
  intros E. rewrite process_submission_unfold. unfold aggregate.
  now rewrite group_ratings_unresolved.
Qed.

Lemma pass_type_error (st : Redis) (sub : MatchSubmission) :
  raised (process_submission rate sub st) = Some TypeError ->
  version_latest st = None
  \/ Exists (unresolved (qualities st)) (rollout_data sub).
Proof.
  intros H.
  destruct (process_submission rate sub st) as [ts s|e' s] eqn:P;
    [discriminate|].
  simpl in H. inversion H; subst.
  destruct (process_submission_Raise _ _ _ _ _ P) as [A _].
  unfold aggregate in A.
  destruct (group_ratings rate st sub) as [e'|[ro d]] eqn:G.
  - inversion A; subst. unfold group_ratings in G.
    destruct (version_latest st) as [lv|]; [|now left].
    destruct (collect_seats _ _ _ _ _) as [e'|[[ro bl] og]] eqn:C.
    { right. now destruct (collect_seats_inl _ _ _ _ _ _ C). }
    destruct (rate_teams rate bl og (result sub)) as [e'|[r1 r2]] eqn:T;
      [|discriminate].
    inversion G; subst. now apply rate_teams_inl in T.
  - destruct (dict_del d 0); discriminate.
Qed.

(** X3. For a submission whose versions are within the range of the
    64-bit indices that Redis accepts, a pass raises [TypeError] exactly
    when VERSION_LATEST is not set or some version of the submission has no
    rating. *)
Theorem type_error_iff_unresolved (st : Redis) (sub : MatchSubmission) :
  Forall (fun r => - 2 ^ 63 <= snd r < 2 ^ 63) (rollout_data sub) ->
  (raised (process_submission rate sub st) = Some TypeError <->
   version_latest st = None
   \/ Exists (unresolved (qualities st)) (rollout_data sub)).
Proof.
  intros _. split.
  - apply pass_type_error.
  - intros [V|E].
    + rewrite process_submission_unfold. unfold aggregate, group_ratings.
      now rewrite V.
    + now rewrite unresolved_raises.
Qed.


(** *** Runs over a queue *)

Lemma generate_rollouts_from_queue_field (q r : list MatchSubmission)
    (st : Redis) :
  generate_rollouts_from rate q (set_rollouts st r)
  = generate_rollouts_from rate q st.
Proof. destruct q; reflexivity. Qed.

(** X4. Whatever is queued, what [generate_rollouts] yields is, in the
    order of the queue and of the seats, the rollouts recorded at the
    version that VERSION_LATEST holds, of the submissions it got through:
    all that were queued when it ends blocked on the empty queue, and those
    before the offending one when it crashes, the offending submission
    being popped and the later ones left queued. The run changes nothing
    in the store but the queue and the entries of QUALITIES, whose number
    it keeps. *)
Theorem yields_come_from_latest (q : list MatchSubmission) :
  forall (st st' : Redis) ys e lv,
  version_latest st = Some lv ->
  generate_rollouts_from rate q st = (ys, e, st') ->
  (exists qs,
      st' = set_rollouts (set_qualities st qs) (rollouts st')
      /\ length qs = length (qualities st))
  /\ exists done,
       ys = flat_map
              (fun sub =>
                 map fst (filter (fun r => snd r =? lv) (rollout_data sub)))
              done
       /\ match e with
          | Blocked => done = q /\ rollouts st' = []
          | Crashed _ => exists sub, q = done ++ sub :: rollouts st'
          end.
Proof.
  induction q as [|sub rest IH]; intros st st' ys e lv V H; simpl in H.
  - inversion H; subst. split.
    + exists (qualities st). split; [reflexivity|reflexivity].
    + exists []. repeat split.
  - destruct (process_submission rate sub (set_rollouts st rest))
      as [ts s|e' s] eqn:P.
    + destruct (generate_rollouts_from rate rest s) as [[more e''] s'] eqn:G.
      inversion H; subst. clear H.
      destruct (process_submission_yields _ _ _ _ _ P) as (lv' & Hv & ->).
      destruct (process_submission_Ok_state _ _ _ _ P) as (q' & -> & Lq').
      simpl in Hv. assert (lv' = lv) by congruence. subst lv'.
      destruct (IH (set_qualities (set_rollouts st rest) q') _ _ _ lv V G)
        as [(qs & E & Lq) (done & -> & D)].
      split.
      * exists qs. split; [exact E|]. simpl in Lq, Lq'. congruence.
      * exists (sub :: done). split; [reflexivity|].
        destruct e as [|e].
        -- destruct D as [-> R]. split; [reflexivity|exact R].
        -- destruct D as [sub' ->]. exists sub'. reflexivity.
    + inversion H; subst.
      destruct (process_submission_Raise _ _ _ _ _ P) as [_ ->].
      split.
      * exists (qualities st). split; reflexivity.
      * exists []. split; [reflexivity|]. exists sub. reflexivity.
Qed.

Lemma write_back_queue_field (wb : list (Z * Rating)) :
  forall (st : Redis) (r : list MatchSubmission),
  write_back wb (set_rollouts st r)
  = match write_back wb st with
    | Ok a s => Ok a (set_rollouts s r)
    | Raise e s => Raise e (set_rollouts s r)
    end.
Proof.
  induction wb as [|[version avg] wb IH]; intros st r; [reflexivity|].
  cbn [write_back]. unfold lset_qualities. unfold bind, get, put, raise.
  cbn [qualities set_rollouts].
  destruct (lset (qualities st) version avg) as [q|]; [|reflexivity].
  apply (IH (set_qualities st q) r).
Qed.

Lemma process_submission_queue_field (sub : MatchSubmission) (st : Redis)
    (r : list MatchSubmission) :
  process_submission rate sub (set_rollouts st r)
  = match process_submission rate sub st with
    | Ok a s => Ok a (set_rollouts s r)
    | Raise e s => Raise e (set_rollouts s r)
    end.
Proof.
  rewrite !process_submission_unfold.
  change (aggregate rate (set_rollouts st r) sub) with (aggregate rate st sub).
  destruct (aggregate rate st sub) as [e|[ro wb]]; [reflexivity|].
  unfold bind. rewrite write_back_queue_field.
  destruct (write_back wb st); reflexivity.
Qed.

(** X5. Runs over a queue compose. When the run over [q1] gets through,
    the run over [q1 ++ q2] yields what it yielded and goes on with [q2]
    from the store it left; when it crashes, the run over [q1 ++ q2] yields
    the same, crashes the same way and leaves [q2] queued behind what was
    still queued. *)
Theorem queue_runs_compose (q1 q2 : list MatchSubmission) :
  forall st : Redis,
  generate_rollouts_from rate (q1 ++ q2) st
  = match generate_rollouts_from rate q1 st with
    | (ys1, Blocked, st1) =>
        let '(ys2, e, st2) := generate_rollouts_from rate q2 st1 in
        (ys1 ++ ys2, e, st2)
    | (ys1, Crashed e, st1) =>
        (ys1, Crashed e, set_rollouts st1 (rollouts st1 ++ q2))
    end.
Proof.
  induction q1 as [|sub rest IH]; intros st.
  - simpl. rewrite generate_rollouts_from_queue_field.
    now destruct (generate_rollouts_from rate q2 st) as [[ys2 e] st2].
  - cbn [app generate_rollouts_from].
    rewrite (process_submission_queue_field sub st (rest ++ q2)).
    rewrite (process_submission_queue_field sub st rest).
    destruct (process_submission rate sub st) as [ts s|e s]; [|reflexivity].
    rewrite !generate_rollouts_from_queue_field, IH.
    destruct (generate_rollouts_from rate rest s) as [[ys1 [|e]] st1].
    + destruct (generate_rollouts_from rate q2 st1) as [[ys2 e] st2].
      now rewrite app_assoc.
    + reflexivity.
Qed.

End GeneratorMore.

Section WriteBackFacts.

Context {Params Traj : Type}.
Variable rate :
  list Rating * list Rating -> Z * Z -> option (list Rating * list Rating).

Local Abbreviation Redis := (@Redis Params Traj).
Local Abbreviation MatchSubmission := (@MatchSubmission Traj).
Local Abbreviation RolloutRecord := (@RolloutRecord Traj).

(** *** The dict, read by key *)

Lemma dict_get_setdefault (d : versions_dict) v r k :
  dict_get (setdefault_append d v r) k
  = if k =? v
    then Some (match dict_get d v with Some l => l ++ [r] | None => [r] end)
    else dict_get d k.
Proof.
  unfold dict_get. induction d as [|[k0 rs] d IH]; cbn [setdefault_append].
  - cbn [find fst snd]. rewrite (Z.eqb_sym v k). now destruct (k =? v).
  - destruct (Z.eqb_spec k0 v) as [->|N]; cbn [find fst snd].
    + rewrite Z.eqb_refl, (Z.eqb_sym v k). now destruct (k =? v).
    + destruct (Z.eqb_spec k0 v) as [E|_]; [contradiction|].
      destruct (Z.eqb_spec k0 k) as [->|N'].
      * destruct (Z.eqb_spec k v) as [E|_]; [congruence|reflexivity].
      * exact IH.
Qed.

Lemma dict_get_fold (ps : list (Rating * RolloutRecord)) : forall d k,
  dict_get (fold_left (fun d p => setdefault_append d (snd (snd p)) (fst p))
                      ps d) k
  = let l := map fst (filter (fun p => snd (snd p) =? k) ps) in
    match dict_get d k with
    | Some l0 => Some (l0 ++ l)
    | None => match l with [] => None | _ => Some l end
    end.
Proof.
  induction ps as [|[r [t v]] ps IH]; intros d k; simpl.
  - destruct (dict_get d k); [now rewrite app_nil_r|reflexivity].
  - rewrite IH, dict_get_setdefault. simpl.
    destruct (Z.eqb_spec k v) as [->|N].
    + rewrite Z.eqb_refl. simpl.
      destruct (dict_get d v); simpl; [now rewrite <- app_assoc|reflexivity].
    + destruct (Z.eqb_spec v k) as [E|_]; [congruence|reflexivity].
Qed.

Lemma dict_get_group rs (data : list RolloutRecord) k :
  dict_get (group_versions rs data) k
  = match ratings_at k rs data with
    | [] => None
    | l => Some l
    end.
Proof.
  unfold group_versions, ratings_at. rewrite dict_get_fold.
  cbv zeta. change (dict_get [] k) with (@None (list Rating)).
  now destruct (map fst _).
Qed.

Lemma keys_setdefault (d : versions_dict) v r :
  map fst (setdefault_append d v r)
  = if dict_mem d v then map fst d else map fst d ++ [v].
Proof.
  unfold dict_mem. induction d as [|[k0 rs] d IH]; simpl; [reflexivity|].
  destruct (Z.eqb_spec k0 v) as [->|N]; simpl; [reflexivity|].
  rewrite IH. now destruct (existsb _ d).
Qed.

Lemma NoDup_keys_setdefault (d : versions_dict) v r :
  NoDup (map fst d) -> NoDup (map fst (setdefault_append d v r)).
Proof.
  intros N. rewrite keys_setdefault. destruct (dict_mem d v) eqn:Dm; [exact N|].
  apply NoDup_app; [exact N|repeat constructor; intros []|].
  intros x I [<-|[]]. apply dict_mem_In in I. congruence.
Qed.

Lemma NoDup_keys_group rs (data : list RolloutRecord) :
  NoDup (map fst (group_versions rs data)).
Proof.
  unfold group_versions.
  assert (G : forall ps (d : versions_dict),
             NoDup (map fst d) ->
             NoDup (map fst
               (fold_left (fun d (p : Rating * RolloutRecord) =>
                             setdefault_append d (snd (snd p)) (fst p))
                          ps d))).
  { induction ps as [|p ps IH]; intros d N; simpl; [exact N|].
    apply IH. now apply NoDup_keys_setdefault. }
  apply G. constructor.
Qed.

Lemma NoDup_keys_filter (f : Z * list Rating -> bool) (d : versions_dict) :
  NoDup (map fst d) -> NoDup (map fst (filter f d)).
Proof.
  induction d as [|p d IH]; simpl; intros N; [constructor|].
  inversion N as [|? ? Hn Nd]; subst. destruct (f p); simpl; auto.
  constructor; auto. intros I. apply Hn.
  apply in_map_iff in I. destruct I as [p' [E I]].
  apply filter_In in I. apply in_map_iff. exists p'. tauto.
Qed.

Lemma dict_get_In (d : versions_dict) k l :
  dict_get d k = Some l -> In (k, l) d.
Proof.
  unfold dict_get. destruct (find _ d) as [[k' l']|] eqn:F; [|discriminate].
  intros H. inversion H; subst. apply find_some in F. destruct F as [I E].
  simpl in E. apply Z.eqb_eq in E. now subst.
Qed.

(** *** The writes, read back *)

Lemma nth_error_list_set_eq {A} (l : list A) : forall n v,
  (n < length l)%nat -> nth_error (list_set l n v) n = Some v.
Proof.
  induction l as [|h t IH]; intros [|n] v L; simpl in *; try lia; auto.
  apply IH. lia.
Qed.

Lemma nth_error_list_set_neq {A} (l : list A) : forall n m v,
  m <> n -> nth_error (list_set l n v) m = nth_error l m.
Proof.
  induction l as [|h t IH]; intros [|n] [|m] v N; simpl; auto; try congruence.
Qed.

Lemma write_back_reads (wb : list (Z * Rating)) : forall st st' : Redis,
  NoDup (map fst wb) ->
  Forall (fun p => 0 <= fst p) wb ->
  write_back wb st = Ok tt st' ->
  (forall k a, In (k, a) wb ->
               nth_error (qualities st') (Z.to_nat k) = Some a)
  /\ (forall i, (forall k a, In (k, a) wb -> Z.to_nat k <> i) ->
                nth_error (qualities st') i = nth_error (qualities st) i).
Proof.
  induction wb as [|[k0 a0] wb IH]; intros st st' N F W.
  - simpl in W. unfold ret in W. inversion W; subst.
    split; [intros k a []|reflexivity].
  - inversion N as [|? ? Hn Nw]; subst.
    inversion F as [|? ? H0 Fw]; subst. simpl in H0.
    cbn [write_back] in W. unfold lset_qualities in W.
    unfold bind, get, put, raise, lset, redis_index in W.
    destruct (Z.leb_spec 0 k0); [|lia].
    destruct (Z.ltb_spec k0 (Z.of_nat (length (qualities st))));
      [|discriminate].
    destruct (IH _ _ Nw Fw W) as [Ha Hb]. cbn [qualities set_qualities] in Hb.
    assert (D : forall k a, In (k, a) wb -> Z.to_nat k <> Z.to_nat k0).
    { intros k a I E. apply Hn. apply in_map_iff. exists (k, a).
      split; [|exact I]. simpl. rewrite Forall_forall in Fw.
      specialize (Fw _ I). simpl in Fw. lia. }
    split.
    + intros k a [E|I].
      * inversion E; subst. rewrite (Hb _ D).
        apply nth_error_list_set_eq. lia.
      * now apply Ha.
    + intros i Hi. rewrite Hb.
      * apply nth_error_list_set_neq. apply not_eq_sym.
        apply (Hi k0 a0). now left.
      * intros k a I. apply (Hi k a). now right.
Qed.

Lemma group_ratings_new (st : Redis) (sub : MatchSubmission) ro d :
  group_ratings rate st sub = inr (ro, d) ->
  exists rs,
    new_seat_ratings rate st sub = Some rs
    /\ d = group_versions rs (rollout_data sub)
    /\ (rate_keeps_sizes rate -> length rs = length (rollout_data sub)).
Proof.
  unfold group_ratings, new_seat_ratings.
  destruct (version_latest st) as [lv|]; [|discriminate].
  destruct (collect_seats _ _ _ _ _) as [e'|[[ro' bl] og]] eqn:C;
    [discriminate|].
  destruct (rate_teams rate bl og (result sub)) as [e'|[r1 r2]] eqn:R;
    [discriminate|].
  intros H. inversion H; subst. exists (r1 ++ r2).
  split; [reflexivity|]. split; [reflexivity|].
  intros K. destruct (rate_teams_sizes _ _ _ _ _ _ K R) as [L1 L2].
  destruct (collect_seats_inr _ _ _ _ _ _ _ _ C) as (_ & _ & L).
  rewrite length_app. lia.
Qed.

Lemma ratings_at_nonempty rs (data : list RolloutRecord) k :
  length rs = length data ->
  existsb (fun r => snd r =? k) data = true ->
  ratings_at k rs data <> [].
Proof.
  intros L E.
  pose proof (eq_trans
                (existsb_combine_full (fun r : RolloutRecord => snd r =? k)
                                      rs data L) E) as E'.
  apply existsb_exists in E'. destruct E' as [p [I E']].
  unfold ratings_at. intros Z.
  assert (I' : In (fst p) (map fst (filter (fun p => snd (snd p) =? k)
                                           (combine rs data)))).
  { apply in_map. apply filter_In. auto. }
  rewrite Z in I'. exact I'.
Qed.

(** X6. After a pass that completes on a submission whose versions are
    not negative, with a [rate] that keeps the sizes of the groups, the
    rating stored for every version of the submission other than 0 is the
    average of the new ratings of the seats that version played, and every
    other entry of QUALITIES, the one of version 0 included, is as it
    was. *)
Theorem write_back_stores_averages (st st' : Redis) (sub : MatchSubmission)
    ts :
  rate_keeps_sizes rate ->
  Forall (fun r => 0 <= snd r) (rollout_data sub) ->
  process_submission rate sub st = Ok ts st' ->
  exists rs,
    new_seat_ratings rate st sub = Some rs
    /\ length rs = length (rollout_data sub)
    /\ forall k, 0 <= k ->
         lindex (qualities st') k
         = if negb (k =? 0) && has_version k sub
           then Some (avg_rating (ratings_at k rs (rollout_data sub)))
           else lindex (qualities st) k.
Proof.
  intros K Pos P.
  destruct (process_submission_Ok _ _ _ _ _ P) as (wb & A & W).
  destruct (aggregate_inr _ _ _ _ _ A) as (d & d' & G & D & Ewb).
  destruct (group_ratings_new _ _ _ _ G) as (rs & Hn & Ed & Hl).
  specialize (Hl K). exists rs. split; [exact Hn|]. split; [exact Hl|].
  assert (Fd' : d' = filter (fun p => negb (fst p =? 0)) d).
  { unfold dict_del in D. destruct (dict_mem d 0); [|discriminate].
    now inversion D. }
  assert (Keys : forall k a, In (k, a) wb ->
                   k <> 0 /\ 0 <= k /\ has_version k sub = true).
  { intros k a I.
    destruct (aggregate_keys rate st sub ts wb k A) as (N0 & Iv & _).
    { apply in_map_iff. exists (k, a). auto. }
    split; [exact N0|]. split.
    - apply in_map_iff in Iv. destruct Iv as [r [<- Ir]].
      rewrite Forall_forall in Pos. now apply Pos.
    - now apply has_version_In. }
  destruct (write_back_reads wb st st') as [Ha Hb]; try assumption.
  { subst wb d'. rewrite write_back_map_keys. apply NoDup_keys_filter.
    subst d. apply NoDup_keys_group. }
  { apply Forall_forall. intros [k a] I. simpl.
    now destruct (Keys k a I) as (_ & H0 & _). }
  intros k Hk. rewrite !lindex_nonneg by exact Hk.
  destruct (Z.eqb_spec k 0) as [->|N0]; cbn [negb andb].
  - apply Hb. intros k a I E. destruct (Keys k a I) as (N & H0 & _). lia.
  - destruct (has_version k sub) eqn:Hv.
    + apply Ha. subst wb d' d. unfold write_back_map.
      apply in_map_iff.
      exists (k, ratings_at k rs (rollout_data sub)). split; [reflexivity|].
      apply filter_In. split.
      * apply dict_get_In. rewrite dict_get_group.
        pose proof (ratings_at_nonempty rs (rollout_data sub) k Hl Hv) as Ne.
        destruct (ratings_at k rs (rollout_data sub)); congruence.
      * simpl. apply negb_true_iff. now apply Z.eqb_neq.
    + apply Hb. intros k' a I E. destruct (Keys k' a I) as (_ & H0 & Hv').
      assert (k' = k) by lia. congruence.
Qed.

End WriteBackFacts.

(** * More about the snapshots *)

Section UpdateMore.

Context {Params Traj : Type}.
Variable rate :
  list Rating * list Rating -> Z * Z -> option (list Rating * list Rating).

Local Abbreviation Redis := (@Redis Params Traj).
Local Abbreviation MatchSubmission := (@MatchSubmission Traj).

(** X8. However [update_parameters] ends, by returning or by raising, it
    has published the new model under the number of earlier updates, has
    only appended to the pool (at most the new model) and to the rating
    list (at most one rating), never more ratings than snapshots, and has
    left the rollout queue and the worker ids alone. *)
Theorem update_publishes_and_appends (self : Generator) (p : Params)
    (st : Redis) :
  let st' := final_state (update_parameters self p st) in
  model_latest st' = Some p
  /\ version_latest st' = Some (n_updates self)
  /\ rollouts st' = rollouts st
  /\ worker_ids st' = worker_ids st
  /\ exists (o : list Params) (q : list Rating),
       opponent_models st' = opponent_models st ++ o
       /\ qualities st' = qualities st ++ q
       /\ (o = [] \/ o = [p])
       /\ (length q <= length o)%nat.
Proof.
  cbv zeta. destruct (update_final_cases self p st) as [->| ->].
  - do 4 (split; [reflexivity|]). exists [], []. rewrite !app_nil_r.
    repeat split; auto.
  - destruct (add_opponent_final self p
                (set_version_latest (set_model_latest st (Some p))
                                    (Some (n_updates self))))
      as (q & -> & L & _).
    do 4 (split; [reflexivity|]). exists [p], q.
    repeat split; auto.
Qed.

(** A call made at a multiple of [save_every] on a rating list that is
    not empty publishes, pushes the snapshot and raises. *)
Lemma update_raises_on_rated (g : Generator) (p : Params) (s : Redis) :
  save_every g <> 0 ->
  n_updates g mod save_every g = 0 ->
  qualities s <> [] ->
  update_parameters g p s
  = Raise (match logger g with
           | None => AttributeError
           | Some _ => TypeError
           end)
          (set_opponent_models
             (set_version_latest (set_model_latest s (Some p))
                                 (Some (n_updates g)))
             (rpush (opponent_models s) p)).
Proof.
  intros N Z0 Q. unfold update_parameters, bind at 1 2 3 4, get, put.
  destruct (Z.eqb_spec (save_every g) 0) as [E|_]; [contradiction|].
  rewrite Z0. cbn [Z.eqb]. unfold bind.
  now rewrite add_opponent_raises.
Qed.

(** X9. On a cleared store and with [save_every >= 1], with a logger or
    without: the first [save_every] calls of [update_parameters] return and
    leave the first model as the only snapshot, rated [Rating(0)]; every
    longer run ends in the next call, which publishes its model, pushes it
    as the second snapshot and raises while it logs the ratings,
    [TypeError] with a logger and [AttributeError] without, before a rating
    is pushed and before the update is counted. *)
Theorem second_snapshot_is_never_rated (params : nat -> Params) (se : Z)
    (lg : option (list (list Q))) (k : nat) :
  1 <= se ->
  let g := mkGenerator 0 se lg in
  ((1 <= k)%nat -> Z.of_nat k <= se ->
   exists st : Redis,
     update_many params 0 k g empty_redis
     = Ok (mkGenerator (Z.of_nat k) se lg) st
     /\ model_latest st = Some (params (k - 1)%nat)
     /\ version_latest st = Some (Z.of_nat k - 1)
     /\ opponent_models st = [params 0%nat]
     /\ qualities st = [Rating_mu 0])
  /\ (se < Z.of_nat k ->
      exists st : Redis,
        update_many params 0 k g empty_redis
        = Raise (match lg with
                 | None => AttributeError
                 | Some _ => TypeError
                 end) st
        /\ model_latest st = Some (params (Z.to_nat se))
        /\ version_latest st = Some se
        /\ opponent_models st = [params 0%nat; params (Z.to_nat se)]
        /\ qualities st = [Rating_mu 0]).
Proof.
  intros H g. split.
  - intros K1 Hk. destruct k as [|k]; [lia|].
    destruct (@first_updates_return Params Traj params se lg k)
      as (s' & U & Hq & Ho);
      [lia|lia|].
    exists s'. split; [exact U|].
    destruct (update_many_pool params k 0 g _ empty_redis s' eq_refl U)
      as (Hm & Hv & _).
    cbn [Nat.add] in Hm, Hv.
    replace (S k - 1)%nat with k by lia.
    replace (Z.of_nat (S k) - 1) with (Z.of_nat k) by lia. auto.
  - intros Hk.
    destruct (@first_updates_return Params Traj params se lg
                (Z.to_nat se - 1))
      as (s' & U & Hq & Ho); [lia|lia|].
    replace k with ((1 + (Z.to_nat se - 1)) + (1 + (k - Z.to_nat se - 1)))%nat
      by lia.
    unfold g. rewrite update_many_app, U.
    rewrite (update_many_app params 1 (k - Z.to_nat se - 1)).
    cbn [update_many]. unfold bind.
    replace (Z.of_nat (1 + (Z.to_nat se - 1))) with se by lia.
    replace (0 + (1 + (Z.to_nat se - 1)))%nat with (Z.to_nat se) by lia.
    rewrite update_raises_on_rated.
    + cbn [logger n_updates]. eexists. split; [reflexivity|].
      cbn [model_latest version_latest opponent_models qualities
           set_opponent_models set_version_latest set_model_latest].
      rewrite Ho, Hq. repeat split.
    + cbn. lia.
    + cbn [n_updates save_every]. apply Z.mod_same. lia.
    + rewrite Hq. discriminate.
Qed.

Lemma append_positions_sparse (se : Z) (k : nat) :
  2 <= se -> (length (append_positions se 0 (S (S k))) <= S k)%nat.
Proof.
  intros H. unfold append_positions. cbn [seq filter].
  assert (E : Z.of_nat 1 mod se = 1) by (apply Z.mod_small; lia).
  rewrite E. cbn [Z.eqb].
  pose proof (filter_length_le (fun j => Z.of_nat j mod se =? 0) (seq 2 k)).
  rewrite length_seq in H0.
  destruct (Z.of_nat 0 mod se =? 0); simpl; lia.
Qed.

(** X10. With [save_every >= 2], after two or more updates that returned
    on a cleared store the latest published version has no rating: the pool
    is shorter than the version number. A submission with a seat of the
    latest version then makes the pass raise [TypeError]. *)
Theorem latest_version_is_unrated (params : nat -> Params) (se : Z)
    (lg : option (list (list Q))) (k : nat) (self : Generator) (st : Redis) :
  2 <= se ->
  update_many params 0 (S (S k)) (mkGenerator 0 se lg) empty_redis
  = Ok self st ->
  version_latest st = Some (Z.of_nat (S k))
  /\ lindex (qualities st) (Z.of_nat (S k)) = None
  /\ forall sub : MatchSubmission,
       has_version (Z.of_nat (S k)) sub = true ->
       process_submission rate sub st = Raise TypeError st.
Proof.
  intros H U.
  destruct (update_many_Ok params (S (S k)) 0 (mkGenerator 0 se lg) self
                           empty_redis st eq_refl U) as (_ & _ & Hq).
  assert (Hv : version_latest st = Some (Z.of_nat (S k))).
  { now destruct (update_many_pool params (S k) 0 (mkGenerator 0 se lg) self
                                   empty_redis st eq_refl U) as (_ & Hv & _). }
  assert (Hl : lindex (qualities st) (Z.of_nat (S k)) = None).
  { cbn [qualities empty_redis save_every length Nat.add] in Hq.
    pose proof (append_positions_sparse se k H) as Sp.
    rewrite lindex_nonneg by lia. apply nth_error_None.
    rewrite Nat2Z.id. lia. }
  repeat split; [exact Hv|exact Hl|].
  intros sub Hs. apply unresolved_raises.
  apply Exists_exists. apply existsb_exists in Hs.
  destruct Hs as [r [I E]]. apply Z.eqb_eq in E.
  exists r. split; [exact I|]. unfold unresolved. now rewrite E.
Qed.



(** *** A generator without a logger *)

(** X11. A generator constructed without a logger, with
    [save_every >= 1], completes its first [save_every] updates on a
    cleared store. The next one publishes its model and pushes it to the
    pool as the second snapshot, then raises [AttributeError] at
    [self.logger.log]: the pool is left with two snapshots and the rating
    list with one, and any longer run of updates ends there. *)
Theorem updates_without_logger (params : nat -> Params) (se : Z) (k : nat) :
  1 <= se ->
  let g := mkGenerator 0 se None in
  ((Z.of_nat k <= se) ->
   exists self (st : Redis),
     update_many params 0 k g empty_redis = Ok self st)
  /\ ((se < Z.of_nat k) ->
      exists st : Redis,
        update_many params 0 k g empty_redis = Raise AttributeError st
        /\ model_latest st = Some (params (Z.to_nat se))
        /\ version_latest st = Some se
        /\ length (opponent_models st) = 2%nat
        /\ length (qualities st) = 1%nat).
Proof.
  intros H g.
  assert (Quiet : forall m, (Z.of_nat m < se) ->
            exists s' : Redis,
              update_many params 0 (1 + m) g empty_redis
              = Ok (mkGenerator (Z.of_nat (1 + m)) se None) s'
              /\ qualities s' = [Rating_mu 0]
              /\ opponent_models s' = [params 0%nat]).
  { intros m Hm. now apply (@first_updates_return Params Traj). }
  split.
  - intros Hk. destruct k as [|k].
    + exists g, empty_redis. reflexivity.
    + destruct (Quiet k) as (s' & U & _); [lia|]. eauto.
  - intros Hk.
    destruct (Quiet (Z.to_nat se - 1)%nat) as (s' & U & Hq & Ho); [lia|].
    replace k with ((1 + (Z.to_nat se - 1)) + (1 + (k - Z.to_nat se - 1)))%nat
      by lia.
    rewrite update_many_app, U.
    rewrite (update_many_app params 1 (k - Z.to_nat se - 1)).
    cbn [update_many]. unfold bind.
    assert (R : update_parameters
                  (mkGenerator (Z.of_nat (1 + (Z.to_nat se - 1))) se None)
                  (params (0 + (1 + (Z.to_nat se - 1)))%nat) s'
                = Raise AttributeError
                    (set_opponent_models
                       (set_version_latest
                          (set_model_latest s'
                             (Some (params (0 + (1 + (Z.to_nat se - 1)))%nat)))
                          (Some (Z.of_nat (1 + (Z.to_nat se - 1)))))
                       (rpush (opponent_models s')
                              (params (0 + (1 + (Z.to_nat se - 1)))%nat)))).
    { unfold update_parameters, bind at 1 2 3 4, get, put.
      cbn [save_every n_updates].
      destruct (Z.eqb_spec se 0) as [E|_]; [lia|].
      replace (Z.of_nat (1 + (Z.to_nat se - 1))) with se by lia.
      rewrite Z.mod_same by lia. cbn [Z.eqb].
      unfold _add_opponent, bind, get, put.
      cbn [qualities set_opponent_models set_version_latest set_model_latest
           logger]. rewrite Hq. reflexivity. }
    rewrite R. eexists. split; [reflexivity|].
    cbn [model_latest version_latest opponent_models qualities
         set_opponent_models set_version_latest set_model_latest].
    rewrite Ho, Hq.
    replace (0 + (1 + (Z.to_nat se - 1)))%nat with (Z.to_nat se) by lia.
    replace (Z.of_nat (1 + (Z.to_nat se - 1))) with se by lia.
    repeat split.
Qed.



(** *** The ratings of the snapshots *)

Lemma update_final_ratings (self : Generator) (p : Params) (st : Redis) :
  qualities (final_state (update_parameters self p st)) = qualities st
  \/ qualities st = []
     /\ qualities (final_state (update_parameters self p st)) = [Rating_mu 0].
Proof.
  destruct (update_final_cases self p st) as [->| ->]; [now left|].
  destruct (add_opponent_final self p
              (set_version_latest (set_model_latest st (Some p))
                                  (Some (n_updates self))))
    as (q & -> & _ & [->|[E ->]]).
  - left. cbn. now rewrite app_nil_r.
  - right. cbn in E. cbn. rewrite E. auto.
Qed.

(** X12. No call of [update_parameters] pushes a rating onto a rating list
    that has one: whatever run of calls is made and however it ends, a
    rating list that was not empty is left as it was, and one that was
    empty is left empty or as [[Rating(0)]]. Line 114, which seeds a new
    rating with the last mean, is never reached. *)
Theorem ratings_stop_at_the_first (params : nat -> Params) (k : nat) :
  forall (from : nat) (self : Generator) (st : Redis),
  let st' := final_state (update_many params from k self st) in
  (qualities st <> [] -> qualities st' = qualities st)
  /\ (qualities st = [] ->
      qualities st' = [] \/ qualities st' = [Rating_mu 0]).
Proof.
  induction k as [|k IH]; intros from self st; cbv zeta.
  - cbn. split; [reflexivity|]. intros E. now left.
  - cbn [update_many]. unfold bind.
    pose proof (update_final_ratings self (params from) st) as F.
    destruct (update_parameters self (params from) st) as [g s|e s];
      cbn [final_state] in F.
    + destruct (IH (S from) g s) as [In Ie].
      destruct F as [F|[E F]].
      * rewrite F in In, Ie. split; assumption.
      * split; [congruence|]. intros _. right.
        rewrite In by (rewrite F; discriminate). exact F.
    + cbn [final_state]. destruct F as [F|[E F]].
      * rewrite F. split; [reflexivity|]. intros E. now left.
      * split; [congruence|]. intros _. now right.
Qed.

End UpdateMore.

(** * More about the worker *)

Section WorkerMoreFacts.

Context {Params Traj : Type}.
Variable log10 : Q.
Variable expq : Q -> Q.
Variable shuffle : list (@Seat Params) -> list (@Seat Params).
Variable generate_episode : list Params -> list Traj * Z.

Local Abbreviation Redis := (@Redis Params Traj).
Local Abbreviation World := (@World Params Traj).
Local Abbreviation Worker := (@Worker Params).

(** *** What the selection leaves alone *)

Lemma only_rng_moved_refl (w : World) : only_rng_moved w w.
Proof. unfold only_rng_moved. auto. Qed.

Lemma only_rng_moved_trans (w1 w2 w3 : World) :
  only_rng_moved w1 w2 -> only_rng_moved w2 w3 -> only_rng_moved w1 w3.
Proof.
  unfold only_rng_moved. intros (A & B & C & D) (A' & B' & C' & D').
  repeat split; try congruence. lia.
Qed.

Lemma keeps_ret {A} (a : A) : @keeps_store Params Traj _ (@ret World A a).
Proof. intros w. apply only_rng_moved_refl. Qed.

Lemma keeps_raise {A} (e : error) : @keeps_store Params Traj _ (@raise World A e).
Proof. intros w. apply only_rng_moved_refl. Qed.

Lemma keeps_bind {A B} (c : M World A) (k : A -> M World B) :
  keeps_store c -> (forall a, @keeps_store Params Traj _ (k a)) -> @keeps_store Params Traj _ (bind c k).
Proof.
  intros Hc Hk w. unfold bind. specialize (Hc w).
  destruct (c w) as [a w1|e w1]; simpl in Hc; [|exact Hc].
  eapply only_rng_moved_trans; [exact Hc|apply Hk].
Qed.

Lemma keeps_random : @keeps_store Params Traj _ random.
Proof. intros w. unfold only_rng_moved. simpl. repeat split. lia. Qed.

Lemma keeps_get_redis : @keeps_store Params Traj _ get_redis.
Proof. intros w. apply only_rng_moved_refl. Qed.

Lemma keeps_unserialize {A} (b : option A) : @keeps_store Params Traj _ (unserialize_w b).
Proof. destruct b; [apply keeps_ret|apply keeps_raise]. Qed.

Lemma keeps_choice (a : nat) (p : list Q) : @keeps_store Params Traj _ (choice a p).
Proof.
  unfold choice.
  repeat match goal with
         | |- @keeps_store _ _ _ (if ?b then _ else _) => destruct b
         end; try apply keeps_raise.
  apply keeps_bind; [apply keeps_random|intros u; apply keeps_ret].
Qed.

Lemma keeps_get_opponent_index : @keeps_store Params Traj _ (_get_opponent_index log10 expq).
Proof.
  unfold _get_opponent_index.
  apply keeps_bind; [apply keeps_get_redis|intros st].
  apply keeps_bind; [apply keeps_choice|intros i; apply keeps_ret].
Qed.

Lemma keeps_extra_seats (self : Worker) lv adjusted (k : nat) :
  @keeps_store Params Traj _ (extra_seats log10 expq self lv adjusted k).
Proof.
  induction k as [|k IH]; [apply keeps_ret|].
  cbn [extra_seats].
  apply keeps_bind; [apply keeps_random|intros u].
  apply keeps_bind.
  - destruct (negb (Qltb u adjusted)); [|apply keeps_ret].
    apply keeps_bind; [apply keeps_get_opponent_index|intros [index prob]].
    apply keeps_bind; [apply keeps_get_redis|intros st].
    apply keeps_bind; [apply keeps_unserialize|intros a; apply keeps_ret].
  - intros seat. apply keeps_bind; [exact IH|intros rest; apply keeps_ret].
Qed.

Lemma keeps_select_agents (self : Worker) lv :
  @keeps_store Params Traj _ (select_agents log10 expq shuffle self lv).
Proof.
  unfold select_agents. apply keeps_bind; [|intros more; apply keeps_ret].
  destruct (1 <? n_agents self); [apply keeps_extra_seats|apply keeps_ret].
Qed.

Lemma keeps_Ok {A} (c : M World A) (w w' : World) (a : A) :
  keeps_store c -> c w = Ok a w' -> only_rng_moved w w'.
Proof. intros K H. specialize (K w). now rewrite H in K. Qed.

Lemma keeps_Raise {A} (c : M World A) (w w' : World) e :
  keeps_store c -> c w = Raise e w' -> only_rng_moved w w'.
Proof. intros K H. specialize (K w). now rewrite H in K. Qed.


(** *** One pass of the loop *)

Lemma run_iteration_effects (self : Worker) (w : World) :
  match run_iteration log10 expq shuffle generate_episode self w with
  | Ok (self', Waited) w' =>
      self' = self /\ model_latest (redis w) = None
      /\ redis w' = redis w /\ slept w' = slept w + 1
  | Ok (self', Published) w' =>
      exists agent lv agents w1,
        model_latest (redis w) = Some agent
        /\ version_latest (redis w) = Some lv
        /\ self' = mkWorker (name self) agent (current_version_prob self)
                            (uuid self) (n_agents self)
        /\ select_agents log10 expq shuffle self' lv w = Ok agents w1
        /\ redis w'
           = set_rollouts (redis w)
               (rpush (rollouts (redis w))
                  (mkSubmission
                     (combine
                        (fst (generate_episode
                                (map (fun s => fst (fst s)) agents)))
                        (map (fun s => snd (fst s)) agents))
                     (uuid self) (name self)
                     (snd (generate_episode
                             (map (fun s => fst (fst s)) agents)))))
        /\ slept w' = slept w
  | Raise e w' =>
      redis w' = redis w /\ slept w' = slept w
      /\ model_latest (redis w) <> None
  end.
Proof.
  unfold run_iteration, bind at 1, get_redis.
  destruct (model_latest (redis w)) as [agent|] eqn:Ml.
  2:{ unfold bind, sleep, ret. simpl. auto. }
  unfold bind at 1.
  destruct (version_latest (redis w)) as [lv|] eqn:Vl.
  2:{ simpl. repeat split; auto. discriminate. }
  cbn [unserialize_w ret].
  set (self1 := mkWorker (name self) agent (current_version_prob self)
                         (uuid self) (n_agents self)).
  unfold bind at 1.
  destruct (select_agents log10 expq shuffle self1 lv w) as [agents w1|e w1]
    eqn:Sa.
  - destruct (keeps_Ok _ _ _ _ (keeps_select_agents self1 lv) Sa)
      as (R & Sl & _).
    destruct (generate_episode (map (fun s => fst (fst s)) agents))
      as [ros res] eqn:Ge.
    unfold bind, get_redis, put_redis, ret. cbn [redis slept].
    exists agent, lv, agents, w1. rewrite R. repeat split; auto.
    now rewrite Ge.
  - destruct (keeps_Raise _ _ _ _ (keeps_select_agents self1 lv) Sa)
      as (R & Sl & _).
    repeat split; auto. discriminate.
Qed.


Lemma set_rollouts_same (st : Redis) :
  set_rollouts st (rollouts st ++ []) = st.
Proof. destruct st. unfold set_rollouts. simpl. now rewrite app_nil_r. Qed.

(** X13. Whatever [run] does in [fuel] passes, and however it ends, the
    only key of the store it has changed is the rollout queue, to which it
    has appended at most [fuel] matches, each under this worker's uuid and
    name. When the passes all return, the matches pushed are as many as it
    counts, and every other pass was one second of sleep. *)
Theorem run_only_appends_matches (fuel : nat) :
  forall (self : Worker) (w : World),
  exists new,
    redis (final_state (run log10 expq shuffle generate_episode fuel self w))
    = set_rollouts (redis w) (rollouts (redis w) ++ new)
    /\ Forall (fun s => sub_uuid s = uuid self /\ sub_name s = name self) new
    /\ (length new <= fuel)%nat
    /\ forall self' n w',
         run log10 expq shuffle generate_episode fuel self w
         = Ok (self', n) w' ->
         length new = n
         /\ slept w' = slept w + Z.of_nat (fuel - n)
         /\ uuid self' = uuid self /\ name self' = name self.
Proof.
  induction fuel as [|fuel IH]; intros self w.
  - exists []. simpl. rewrite set_rollouts_same.
    split; [reflexivity|]. split; [constructor|]. split; [lia|].
    intros self' n w' H. unfold ret in H. inversion H; subst.
    simpl. repeat split; auto. lia.
  - cbn [run]. unfold bind at 1.
    pose proof (run_iteration_effects self w) as E.
    destruct (run_iteration log10 expq shuffle generate_episode self w)
      as [[self1 it] w1|e w1] eqn:Ri.
    + destruct (IH self1 w1) as (new1 & R1 & F1 & L1 & K1).
      assert (Hfin : final_state
                (bind (run log10 expq shuffle generate_episode fuel self1)
                   (fun x => let '(self'', n) := x in
                             ret (self'', match it with
                                          | Published => S n
                                          | Waited => n
                                          end)) w1)
              = final_state
                  (run log10 expq shuffle generate_episode fuel self1 w1)).
      { unfold bind.
        destruct (run log10 expq shuffle generate_episode fuel self1 w1)
          as [[s'' n] w2|e w2]; reflexivity. }
      rewrite Hfin, R1. destruct it.
      * destruct E as (-> & _ & Rw & Sw).
        exists new1. rewrite Rw.
        split; [reflexivity|]. split; [exact F1|]. split; [lia|].
        intros self' n w' H. unfold bind at 1 in H. rewrite Ri in H.
        cbn beta iota in H. unfold bind in H.
        destruct (run log10 expq shuffle generate_episode fuel self w1)
          as [[s'' n''] w2|e w2] eqn:Rn; [|discriminate].
        unfold ret in H. inversion H; subst.
        destruct (K1 _ _ _ eq_refl) as (Ln & Sl & U & Nm).
        repeat split; auto. rewrite Sl, Sw.
        assert (n <= fuel)%nat by lia. lia.
      * destruct E as (agent & lv & agents & w0 & _ & _ & -> & _ & Rw & Sw).
        simpl in F1, K1.
        match type of Rw with
        | _ = set_rollouts _ (rpush _ ?s) => set (sub := s) in *
        end.
        exists (sub :: new1). rewrite Rw. unfold rpush.
        cbn [set_rollouts rollouts qualities model_latest version_latest
             opponent_models worker_ids].
        rewrite <- app_assoc. split; [reflexivity|].
        split; [constructor; auto|]. split; [simpl; lia|].
        intros self' n w' H. unfold bind at 1 in H. rewrite Ri in H.
        cbn beta iota in H. unfold bind in H.
        destruct (run log10 expq shuffle generate_episode fuel _ w1)
          as [[s'' n''] w2|e w2] eqn:Rn; [|discriminate].
        unfold ret in H. inversion H; subst.
        destruct (K1 _ _ _ eq_refl) as (Ln & Sl & U & Nm).
        simpl. repeat split; auto. rewrite Sl, Sw.
        assert (n'' <= fuel)%nat by lia. lia.
    + simpl. destruct E as (Rw & _). exists []. rewrite Rw, set_rollouts_same.
      split; [reflexivity|]. split; [constructor|]. split; [simpl; lia|].
      intros self' n w' H. unfold bind at 1 in H. rewrite Ri in H.
      discriminate.
Qed.


(** *** The seats of a match *)

Lemma lindex_Some_lt {A} (l : list A) (i : nat) (x : A) :
  lindex l (Z.of_nat i) = Some x -> (i < length l)%nat.
Proof.
  rewrite lindex_nonneg by lia. rewrite Nat2Z.id. intros H.
  apply nth_error_Some. congruence.
Qed.

Lemma extra_seats_Ok (self : Worker) lv adjusted (k : nat) :
  forall (w w' : World) seats,
  extra_seats log10 expq self lv adjusted k w = Ok seats w' ->
  length seats = k
  /\ Forall (fun s => seat_version_ok (redis w) lv (snd (fst s))) seats.
Proof.
  induction k as [|k IH]; intros w w' seats H.
  - simpl in H. unfold ret in H. inversion H. auto.
  - cbn [extra_seats] in H. unfold bind at 1 in H. unfold random at 1 in H.
    set (w1 := mkWorld (redis w) (rng w) (S (rng_pos w)) (slept w)) in H.
    unfold bind at 1 in H.
    match type of H with
    | match ?c w1 with _ => _ end = _ =>
        destruct (c w1) as [seat w2|e w2] eqn:Sc; [|discriminate];
        assert (Ks : @keeps_store Params Traj _ c)
    end.
    { destruct (negb (Qltb (rng w (rng_pos w)) adjusted)); [|apply keeps_ret].
      apply keeps_bind; [apply keeps_get_opponent_index|intros [index prob]].
      apply keeps_bind; [apply keeps_get_redis|intros st].
      apply keeps_bind; [apply keeps_unserialize|intros a; apply keeps_ret]. }
    destruct (keeps_Ok _ _ _ _ Ks Sc) as (R2 & _). simpl in R2.
    unfold bind in H.
    destruct (extra_seats log10 expq self lv adjusted k w2)
      as [rest w3|e w3] eqn:Re; [|discriminate].
    unfold ret in H. inversion H; subst seats w3. clear H.
    destruct (IH _ _ _ Re) as [L F]. rewrite R2 in F.
    split; [simpl; now rewrite L|]. constructor; [|exact F].
    destruct (negb (Qltb (rng w (rng_pos w)) adjusted)).
    + unfold bind at 1 in Sc.
      destruct (_get_opponent_index log10 expq w1)
        as [[index prob] w4|e w4] eqn:G; [|discriminate].
      destruct (keeps_Ok _ _ _ _ keeps_get_opponent_index G) as (R4 & _).
      simpl in R4. unfold bind, get_redis in Sc. rewrite R4 in Sc.
      destruct (lindex (opponent_models (redis w)) (Z.of_nat index))
        as [a|] eqn:Li; [|discriminate].
      simpl in Sc. unfold ret in Sc. inversion Sc; subst. simpl.
      right. apply lindex_Some_lt in Li. lia.
    + unfold ret in Sc. inversion Sc; subst. simpl. now left.
Qed.

Lemma select_agents_Ok (self : Worker) lv (w w' : World) agents :
  select_agents log10 expq shuffle self lv w = Ok agents w' ->
  exists more,
    agents
    = shuffle ((current_agent self, lv, current_version_prob self) :: more)
    /\ length more = Z.to_nat (n_agents self - 1)
    /\ Forall (fun s => seat_version_ok (redis w) lv (snd (fst s))) more.
Proof.
  unfold select_agents, bind. destruct (Z.ltb_spec 1 (n_agents self)).
  - destruct (extra_seats _ _ _ _ _ _ w) as [more w1|e w1] eqn:E;
      [|discriminate].
    unfold ret. intros H0. inversion H0; subst.
    destruct (extra_seats_Ok _ _ _ _ _ _ _ E) as [L F]. exists more. auto.
  - unfold ret. intros H0. inversion H0; subst. exists [].
    repeat split; [simpl; lia|constructor].
Qed.

(** X14. With a [shuffle] that permutes, every match a pass pushes has at
    most [max(1, n_agents)] records, exactly that many when the environment
    hands back one rollout for each agent, and the version of every record
    is the latest version or the index of a snapshot that is in the
    pool. *)
Theorem pushed_match_is_well_formed (self self' : Worker) (w w' : World) :
  (forall l, Permutation (shuffle l) l) ->
  run_iteration log10 expq shuffle generate_episode self w
  = Ok (self', Published) w' ->
  exists sub lv,
    redis w' = set_rollouts (redis w) (rpush (rollouts (redis w)) sub)
    /\ version_latest (redis w) = Some lv
    /\ Forall (fun r => seat_version_ok (redis w) lv (snd r))
              (rollout_data sub)
    /\ (length (rollout_data sub) <= Z.to_nat (Z.max 1 (n_agents self)))%nat
    /\ ((forall agents,
           length (fst (generate_episode agents)) = length agents) ->
        length (rollout_data sub) = Z.to_nat (Z.max 1 (n_agents self))).
Proof.
  intros Sh H. pose proof (run_iteration_effects self w) as E.
  rewrite H in E.
  destruct E as (agent & lv & agents & w0 & _ & Vl & -> & Sa & Rw & _).
  destruct (select_agents_Ok _ _ _ _ _ Sa) as (more & -> & Lm & Fm).
  cbn [current_agent current_version_prob n_agents] in *.
  match type of Rw with
  | _ = set_rollouts _ (rpush _ ?s) => exists s, lv
  end.
  split; [exact Rw|]. split; [exact Vl|]. cbn [rollout_data].
  unfold RolloutRecord.
  set (seats := (agent, lv, current_version_prob self) :: more) in *.
  assert (Ls : @length (Params * Z * Q)%type (shuffle seats)
               = Z.to_nat (Z.max 1 (n_agents self))).
  { etransitivity; [exact (Permutation_length (Sh seats))|].
    unfold seats. simpl.
    transitivity (S (Z.to_nat (n_agents self - 1))); [f_equal; exact Lm|lia]. }
  split; [|split].
  - apply Forall_forall. intros [t v] I. apply in_combine_r in I. simpl.
    apply in_map_iff in I. destruct I as [s [<- I]].
    apply (Permutation_in _ (Sh seats)) in I. destruct I as [<-|I].
    + now left.
    + rewrite Forall_forall in Fm. now apply Fm.
  - rewrite length_combine, length_map, Ls. lia.
  - intros Ge. rewrite length_combine, Ge, !length_map, Ls. lia.
Qed.

Lemma extra_seats_all_current (self : Worker) lv adjusted (k : nat) :
  forall w : World,
  (forall i, Qltb (rng w i) adjusted = true) ->
  extra_seats log10 expq self lv adjusted k w
  = Ok (repeat (current_agent self, lv, current_version_prob self) k)
       (mkWorld (redis w) (rng w) (rng_pos w + k) (slept w)).
Proof.
  induction k as [|k IH]; intros w D.
  - simpl. unfold ret. rewrite Nat.add_0_r. now destruct w.
  - rewrite extra_seats_current by apply D. unfold bind.
    rewrite IH by exact D. unfold ret. cbn [redis rng rng_pos slept repeat].
    do 2 f_equal. lia.
Qed.

(** X15. A worker whose [current_version_prob] is 1, with two seats or
    more and samples below 1, fills every seat with the current model at
    the latest version: it takes one sample for each further seat, never
    looks at the pool or the ratings, and so cannot fail, whatever the
    store holds. *)
Theorem sure_current_never_selects (self : Worker) (lv : Z) (w : World) :
  2 <= n_agents self ->
  (current_version_prob self == 1)%Q ->
  (forall i, (rng w i < 1)%Q) ->
  select_agents log10 expq shuffle self lv w
  = Ok (shuffle (repeat (current_agent self, lv, current_version_prob self)
                        (Z.to_nat (n_agents self))))
       (mkWorld (redis w) (rng w)
                (rng_pos w + Z.to_nat (n_agents self - 1)) (slept w)).
Proof.
  intros N P U. unfold select_agents, bind.
  destruct (Z.ltb_spec 1 (n_agents self)); [|lia].
  rewrite extra_seats_all_current.
  - unfold ret. replace (Z.to_nat (n_agents self))
      with (S (Z.to_nat (n_agents self - 1))) by lia.
    reflexivity.
  - intros i. apply Qltb_lt. unfold adjusted_prob. rewrite P.
    assert (1 < inject_Z (n_agents self))%Q.
    { change 1%Q with (inject_Z 1). rewrite <- Zlt_Qlt. lia. }
    setoid_replace ((1 * inject_Z (n_agents self) - 1)
                    / (inject_Z (n_agents self) - 1))%Q with 1%Q
      by (field; lra).
    apply U.
Qed.


(** *** The worker and the learner together *)

(** X16. Once [update_parameters] has been called, however the call
    ended, a worker can be constructed: its constructor finds the model just
    published, takes it as its current agent and appends its uuid to the
    worker ids, changing nothing else. *)
Theorem worker_starts_after_update (self : Generator) (p : Params)
    (st : Redis) (name uuid : string) (agents : Z) (prob : Q)
    (tape : nat -> Q) (pos : nat) (secs : Z) :
  let st' := final_state (update_parameters self p st) in
  RedisRolloutWorker_init name agents prob uuid (mkWorld st' tape pos secs)
  = Ok (mkWorker name p prob uuid agents)
       (mkWorld (set_worker_ids st' (rpush (worker_ids st) uuid))
                tape pos secs).
Proof.
  cbv zeta. destruct (update_final_model self p st) as [Hm Hw].
  unfold RedisRolloutWorker_init, bind, get_redis. cbn [redis].
  rewrite Hm. cbn [unserialize_w ret]. unfold put_redis, ret.
  cbn [redis rng rng_pos slept]. now rewrite Hw.
Qed.

Section WithRate.

Variable rate :
  list Rating * list Rating -> Z * Z -> option (list Rating * list Rating).

(** X17. When the rating list is as long as the pool and the latest
    version has a rating, every version of a match that a pass pushes has
    a rating, so the learner's pass on that match does not raise
    [TypeError]. *)
Theorem pushed_match_resolves (self self' : Worker) (w w' : World) :
  (forall l, Permutation (shuffle l) l) ->
  length (qualities (redis w)) = length (opponent_models (redis w)) ->
  (forall lv, version_latest (redis w) = Some lv ->
              lindex (qualities (redis w)) lv <> None) ->
  run_iteration log10 expq shuffle generate_episode self w
  = Ok (self', Published) w' ->
  exists sub,
    redis w' = set_rollouts (redis w) (rpush (rollouts (redis w)) sub)
    /\ Forall (fun r => lindex (qualities (redis w)) (snd r) <> None)
              (rollout_data sub)
    /\ raised (process_submission rate sub (redis w)) <> Some TypeError.
Proof.
  intros Sh Len Lv H. pose proof (run_iteration_effects self w) as E.
  rewrite H in E.
  destruct E as (agent & lv & agents & w0 & _ & Vl & -> & Sa & Rw & _).
  destruct (select_agents_Ok _ _ _ _ _ Sa) as (more & -> & Lm & Fm).
  cbn [current_agent current_version_prob] in *.
  match type of Rw with
  | _ = set_rollouts _ (rpush _ ?s) => set (sub := s) in *
  end.
  assert (F : Forall (fun r => lindex (qualities (redis w)) (snd r) <> None)
                     (rollout_data sub)).
  { apply Forall_forall. intros [t v] I. unfold sub in I.
    cbn [rollout_data] in I. apply in_combine_r in I. simpl.
    apply in_map_iff in I. destruct I as [s [<- I]].
    apply (Permutation_in _ (Sh _)) in I.
    assert (Ok' : seat_version_ok (redis w) lv (snd (fst s))).
    { destruct I as [<-|I]; [now left|].
      rewrite Forall_forall in Fm. now apply Fm. }
    destruct Ok' as [->|[Lo Hi]]; [now apply Lv|].
    rewrite lindex_nonneg by exact Lo. apply nth_error_Some. lia. }
  exists sub. split; [exact Rw|]. split; [exact F|].
  intros T. apply pass_type_error in T. destruct T as [T|T]; [congruence|].
  apply Exists_exists in T. destruct T as [r [I U]].
  rewrite Forall_forall in F. exact (F r I U).
Qed.

End WithRate.

End WorkerMoreFacts.

(** * More about the seat draw *)

Section SeatMore.

(** X18. With two seats or more, the adjusted probability is a
    probability exactly when [1 / n_agents <= current_version_prob <= 1];
    below that range it is negative, above it exceeds 1. *)
Theorem adjusted_prob_valid (current_version_prob : Q) (n_agents : Z) :
  2 <= n_agents ->
  let adjusted := adjusted_prob current_version_prob n_agents in
  ((0 <= adjusted <= 1)%Q <->
   (1 <= current_version_prob * inject_Z n_agents)%Q
   /\ (current_version_prob <= 1)%Q)
  /\ ((current_version_prob * inject_Z n_agents < 1)%Q -> (adjusted < 0)%Q)
  /\ ((1 < current_version_prob)%Q -> (1 < adjusted)%Q).
Proof.
  intros N adjusted. unfold adjusted, adjusted_prob.
  assert (H1 : (1 < inject_Z n_agents)%Q).
  { change 1%Q with (inject_Z 1). rewrite <- Zlt_Qlt. lia. }
  assert (Hd : (0 < inject_Z n_agents - 1)%Q) by lra.
  set (n := inject_Z n_agents) in *. set (p := current_version_prob).
  assert (Le0 : (0 <= (p * n - 1) / (n - 1) <-> 1 <= p * n)%Q).
  { split; intros H.
    - apply (Qmult_le_compat_r _ _ (n - 1)) in H; [|lra].
      rewrite Qmult_0_l in H.
      setoid_replace ((p * n - 1) / (n - 1) * (n - 1))%Q with (p * n - 1)%Q
        in H by (field; lra). lra.
    - apply Qle_shift_div_l; [exact Hd|]. lra. }
  assert (Le1 : ((p * n - 1) / (n - 1) <= 1 <-> p <= 1)%Q).
  { split; intros H.
    - apply (Qmult_le_compat_r _ _ (n - 1)) in H; [|lra].
      setoid_replace ((p * n - 1) / (n - 1) * (n - 1))%Q with (p * n - 1)%Q
        in H by (field; lra).
      assert (p * n <= n)%Q by lra.
      destruct (Qlt_le_dec 1 p) as [G|G]; [|exact G].
      assert (n < p * n)%Q; [|lra].
      setoid_replace n with (1 * n)%Q at 1 by ring.
      apply Qmult_lt_compat_r; lra.
    - apply Qle_shift_div_r; [exact Hd|].
      assert (p * n <= 1 * n)%Q by (apply Qmult_le_compat_r; lra). lra. }
  split; [|split].
  - rewrite <- Le0, <- Le1. tauto.
  - intros H. apply Qnot_le_lt. intros G. apply Le0 in G. lra.
  - intros H. apply Qnot_le_lt. intros G. apply Le1 in G. lra.
Qed.

End SeatMore.

(** * The extra properties on the samples *)

Lemma teams_split_by_position_witness :
  exists ratings,
    map (lindex (qualities store_v1)) (map snd (rollout_data sub_101))
    = map Some ratings
    /\ [r0; r0] ++ [r0] = ratings
    /\ [r0; r0] = firstn ((length (rollout_data sub_101) + 1) / 2) ratings
    /\ length [r0; r0] = ((length (rollout_data sub_101) + 1) / 2)%nat
    /\ length [r0] = (length (rollout_data sub_101) / 2)%nat.
Proof.
  apply (teams_split_by_position (qualities store_v1) 1
           (rollout_data sub_101) [40%nat; 42%nat] [r0; r0] [r0]).
  reflexivity.
Defined.

Lemma type_error_iff_unresolved_witness :
  raised (process_submission sample_rate sub_70 store_v1) = Some TypeError.
Proof.
  apply (proj2 (type_error_iff_unresolved sample_rate store_v1 sub_70
                  ltac:(repeat constructor; simpl; lia))).
  right. apply Exists_cons_hd. reflexivity.
Defined.

Lemma yields_come_from_latest_witness :
  exists done,
    [20%nat; 21%nat]
    = flat_map
        (fun sub => map fst (filter (fun r => snd r =? 0) (rollout_data sub)))
        done
    /\ exists sub, [sub_00; sub_11] = done ++ sub :: [].
Proof.
  apply (yields_come_from_latest sample_rate [sub_00; sub_11] store_v0
           store_v0 [20%nat; 21%nat] (Crashed TypeError) 0).
  - reflexivity.
  - vm_compute. reflexivity.
Defined.

Lemma write_back_stores_averages_witness :
  exists rs,
    new_seat_ratings sample_rate store_v1 sub_101 = Some rs
    /\ length rs = length (rollout_data sub_101)
    /\ forall k, 0 <= k ->
         lindex (qualities
                   (final_state
                      (process_submission sample_rate sub_101 store_v1))) k
         = if negb (k =? 0) && has_version k sub_101
           then Some (avg_rating (ratings_at k rs (rollout_data sub_101)))
           else lindex (qualities store_v1) k.
Proof.
  apply (write_back_stores_averages sample_rate store_v1
           (final_state (process_submission sample_rate sub_101 store_v1))
           sub_101 [40%nat; 42%nat] sample_rate_keeps_sizes).
  - repeat constructor; simpl; lia.
  - vm_compute. reflexivity.
Defined.

Lemma second_snapshot_is_never_rated_witness :
  exists st : @Redis nat nat,
    update_many (fun n => n) 0 12 (mkGenerator 0 10 (Some [])) empty_redis
    = Raise TypeError st
    /\ model_latest st = Some 10%nat
    /\ version_latest st = Some 10
    /\ opponent_models st = [0%nat; 10%nat]
    /\ qualities st = [Rating_mu 0].
Proof.
  assert (H : 1 <= 10) by lia.
  apply (proj2 (@second_snapshot_is_never_rated nat nat (fun n => n) 10
                  (Some []) 12 H)).
  simpl. lia.
Defined.

Lemma latest_version_is_unrated_witness :
  let st := final_state
              (update_many (fun n => n) 0 2 (mkGenerator 0 10 (Some []))
                           (@empty_redis nat nat)) in
  version_latest st = Some 1
  /\ lindex (qualities st) 1 = None
  /\ process_submission sample_rate sub_11 st = Raise TypeError st.
Proof.
  cbv zeta.
  assert (H : 2 <= 10) by lia.
  destruct (latest_version_is_unrated sample_rate (fun n => n) 10 (Some [])
              0
              (mkGenerator 2 10 (Some []))
              (final_state
                 (update_many (fun n => n) 0 2 (mkGenerator 0 10 (Some []))
                              (@empty_redis nat nat)))
              H eq_refl) as (V & L & R).
  split; [exact V|]. split; [exact L|]. apply R. reflexivity.
Defined.

Lemma updates_without_logger_witness :
  exists st : @Redis nat nat,
    update_many (fun n => n) 0 12 (mkGenerator 0 10 None) empty_redis
    = Raise AttributeError st
    /\ model_latest st = Some 10%nat
    /\ version_latest st = Some 10
    /\ length (opponent_models st) = 2%nat
    /\ length (qualities st) = 1%nat.
Proof.
  assert (H : 1 <= 10) by lia.
  apply (proj2 (@updates_without_logger nat nat (fun n => n) 10 12 H)).
  simpl. lia.
Defined.

Lemma ratings_stop_at_the_first_witness :
  qualities
    (final_state
       (update_many (fun n => n) 1 12 (mkGenerator 1 10 (Some [])) store_v0))
  = qualities store_v0.
Proof.
  apply (proj1 (ratings_stop_at_the_first (fun n => n) 12 1
                  (mkGenerator 1 10 (Some [])) store_v0)).
  discriminate.
Defined.

Lemma run_only_appends_matches_witness :
  exists new,
    redis (final_state
             (run sample_log10 sample_exp (fun l => l) sample_episode 3
                  worker_2 world_v1))
    = set_rollouts store_v1 (rollouts store_v1 ++ new)
    /\ length new = 3%nat.
Proof.
  destruct (run_only_appends_matches sample_log10 sample_exp (fun l => l)
              sample_episode 3 worker_2 world_v1) as (new & R & _ & _ & K).
  exists new. split; [exact R|].
  refine (proj1 (K _ 3%nat
                   (final_state
                      (run sample_log10 sample_exp (fun l => l)
                           sample_episode 3 worker_2 world_v1)) _)).
  vm_compute. reflexivity.
Defined.

Lemma pushed_match_is_well_formed_witness :
  let w' := final_state
              (run_iteration sample_log10 sample_exp (fun l => l)
                             sample_episode worker_2 world_v1) in
  exists sub lv,
    redis w' = set_rollouts store_v1 (rpush (rollouts store_v1) sub)
    /\ version_latest store_v1 = Some lv
    /\ Forall (fun r => seat_version_ok store_v1 lv (snd r))
              (rollout_data sub)
    /\ length (rollout_data sub) = 2%nat.
Proof.
  cbv zeta.
  destruct (pushed_match_is_well_formed sample_log10 sample_exp (fun l => l)
              sample_episode worker_2
              (mkWorker "worker" 1%nat (9 # 10) "uuid" 2) world_v1
              (final_state
                 (run_iteration sample_log10 sample_exp (fun l => l)
                                sample_episode worker_2 world_v1))
              (fun l => Permutation_refl l) eq_refl)
    as (sub & lv & R & V & F & _ & L).
  exists sub, lv. split; [exact R|]. split; [exact V|]. split; [exact F|].
  apply L. intros agents. apply length_map.
Defined.

Lemma sure_current_never_selects_witness :
  select_agents sample_log10 sample_exp (fun l => l) worker_sure 1 world_v1
  = Ok [(0%nat, 1, 1%Q); (0%nat, 1, 1%Q); (0%nat, 1, 1%Q)]
       (mkWorld store_v1 (constant_tape 0) 2 0).
Proof.
  apply (sure_current_never_selects sample_log10 sample_exp (fun l => l)
           worker_sure 1 world_v1).
  - simpl. lia.
  - reflexivity.
  - intros i. reflexivity.
Defined.

Lemma pushed_match_resolves_witness :
  let w' := final_state
              (run_iteration sample_log10 sample_exp (fun l => l)
                             sample_episode worker_2 world_v1) in
  exists sub,
    redis w' = set_rollouts store_v1 (rpush (rollouts store_v1) sub)
    /\ Forall (fun r => lindex (qualities store_v1) (snd r) <> None)
              (rollout_data sub)
    /\ raised (process_submission sample_rate sub store_v1) <> Some TypeError.
Proof.
  cbv zeta.
  apply (pushed_match_resolves sample_log10 sample_exp (fun l => l)
           sample_episode sample_rate worker_2
              (mkWorker "worker" 1%nat (9 # 10) "uuid" 2) world_v1
           (final_state
              (run_iteration sample_log10 sample_exp (fun l => l)
                             sample_episode worker_2 world_v1))
           (fun l => Permutation_refl l)).
  - reflexivity.
  - intros lv E. inversion E. discriminate.
  - reflexivity.
Defined.

Lemma adjusted_prob_valid_witness :
  (0 <= adjusted_prob (9 # 10) 2 <= 1)%Q
  /\ (adjusted_prob (1 # 4) 2 < 0)%Q
  /\ (1 < adjusted_prob (3 # 2) 2)%Q.
Proof.
  assert (H : 2 <= 2) by lia.
  split; [|split].
  - apply (proj1 (adjusted_prob_valid (9 # 10) 2 H)).
    split; vm_compute; discriminate.
  - apply (proj1 (proj2 (adjusted_prob_valid (1 # 4) 2 H))). reflexivity.
  - apply (proj2 (proj2 (adjusted_prob_valid (3 # 2) 2 H))). reflexivity.
Defined.

Lemma clamped_expectation_of_seats_witness :
  (mean_over 4 2 (current_seats_on sample_log10 sample_exp (fun l => l)
                                   worker_half 1 store_v1_unrated) == 1)%Q.
Proof.
  apply (proj1 (proj2 (clamped_expectation_of_seats sample_log10 sample_exp
                         (fun l => l) (fun l => Permutation_refl l)
                         sample_exp_pos worker_half 1 store_v1_unrated
                         ltac:(discriminate) ltac:(simpl; lia)
                         ltac:(simpl; lia) 4 2
                         ltac:(simpl; lia) ltac:(lia) ltac:(simpl; lia)))).
  vm_compute. discriminate.
Defined.
